(** * fastText model engine: hidden state, loss steps and SGD update

    A shallow embedding of [src/model.cc] (the [State]-based [Model]) and of
    the loss helpers that live next to it in the legacy [Model]
    ([binaryLogistic], [negativeSampling], [hierarchicalSoftmax],
    [computeOutputSoftmax]).

    Conventions.
    - [real] (C++ [float]) is idealised as the mathematical reals [R]:
      rounding, overflow, NaN and infinities are not modelled.
    - [int32_t]/[int64_t] ids and counters are [Z]; a [std::vector] is a list.
    - A failed [assert] aborts the call: [Fatal].  An out-of-bounds read
      through [operator[]] is undefined behaviour in C++ (the compiled code
      does not stop there); the model ends the call at that point, with
      [None] or [Fatal], and nothing is claimed about what a run does
      beyond it.  [std::invalid_argument] is [InvalidArgument].  The store
      that is current when the error is signalled is kept in the result, so
      that "nothing was mutated before the error" is a statement about
      it. *)

From Stdlib Require Import Reals Lra Lia ZArith.
From stdpp Require Import base option list.

Local Open Scope R_scope.

(** ** Numeric primitives *)

Abbreviation Vector := (list R).
Abbreviation Matrix := (list (list R)).

Module Vector.

(** [Vector::zero]: zero-fill, the size is kept. *)
Definition zero (v : Vector) : Vector := (fun _ => 0) <$> v.

(** [Vector::mul(real a)]: in-place scalar multiply. *)
Definition mul (v : Vector) (a : R) : Vector := (fun x => x * a) <$> v.

End Vector.

Module Matrix.

(** [Matrix::size(0)]: the number of rows. *)
Definition size0 (A : Matrix) : Z := Z.of_nat (length A).

(** Row [i] of [A]; [None] when [i] is out of bounds. *)
Definition row (A : Matrix) (i : Z) : option Vector :=
  if decide (0 <= i)%Z then A !! Z.to_nat i else None.

End Matrix.

(** Modelled from the spec: [Vector::addRow(A, i)] of vector.cc, "add a
    scalar multiple of another vector/matrix row into a target", here with
    the multiple 1; a row index out of bounds or a dimension mismatch is a
    failed assertion. *)
Definition addRow1 (v : Vector) (A : Matrix) (i : Z) : option Vector :=
  r ← Matrix.row A i;
  if decide (length r = length v) then Some (zip_with Rplus v r) else None.

(** Modelled from the spec: [Vector::addRow(A, i, a)] of vector.cc,
    [v[j] += a * A[i][j]]. *)
Definition addRow (v : Vector) (A : Matrix) (i : Z) (a : R) : option Vector :=
  r ← Matrix.row A i;
  if decide (length r = length v)
  then Some (zip_with (fun x y => x + a * y) v r) else None.

(** Modelled from the spec: [Matrix::dotRow(vec, i)] of densematrix.cc, the
    dot product of [vec] with row [i], accumulated from [0.0] left to right. *)
Definition dotRow (A : Matrix) (vec : Vector) (i : Z) : option R :=
  r ← Matrix.row A i;
  if decide (length r = length vec)
  then Some (fold_left Rplus (zip_with Rmult r vec) 0) else None.

(** Modelled from the spec: [Matrix::addVectorToRow(vec, i, a)] (legacy name
    [Matrix::addRow(vec, i, a)]) of densematrix.cc, [A[i][j] += a * vec[j]]. *)
Definition addVectorToRow (A : Matrix) (vec : Vector) (i : Z) (a : R)
  : option Matrix :=
  r ← Matrix.row A i;
  if decide (length r = length vec)
  then Some (<[Z.to_nat i := zip_with (fun x y => x + a * y) r vec]> A)
  else None.

(** Modelled from the spec: [Vector::mul(A, vec)] of vector.cc, the dense
    matrix-vector product written into a vector with one entry per row. *)
Definition mulMatrix (out : Vector) (A : Matrix) (vec : Vector)
  : option Vector :=
  if decide (length A = length out)
  then mapM (fun r => if decide (length r = length vec)
                      then Some (fold_left Rplus (zip_with Rmult r vec) 0)
                      else None) A
  else None.

(** ** Worker state and the shared store *)

(** [Model::State]. [rng] stands for the state of the [std::minstd_rand]. *)
Record State := mkState {
  lossValue_ : R;
  nexamples_ : Z;
  hidden : Vector;
  output : Vector;
  grad : Vector;
  rng : Z
}.

(** What a loss evaluation can reach: the shared output matrix behind [wo_],
    the cursor [negpos] into the table of negatives, and the worker state.
    The legacy members [hidden_], [output_] and [grad_] are the buffers that
    the [State]-based interface keeps in [State]; they are identified. *)
Record LossStore := mkLossStore {
  wo_ : Matrix;
  negpos : nat;
  state : State
}.

(** What [Model::update] can reach: the shared input matrix behind [wi_]
    on top of the above. *)
Record Store := mkStore {
  wi_ : Matrix;
  inner : LossStore
}.

Definition setHidden (h : Vector) (s : LossStore) : LossStore :=
  let t := state s in
  mkLossStore (wo_ s) (negpos s)
    (mkState (lossValue_ t) (nexamples_ t) h (output t) (grad t) (rng t)).

Definition setGrad (g : Vector) (s : LossStore) : LossStore :=
  let t := state s in
  mkLossStore (wo_ s) (negpos s)
    (mkState (lossValue_ t) (nexamples_ t) (hidden t) (output t) g (rng t)).

Definition setWo (A : Matrix) (s : LossStore) : LossStore :=
  mkLossStore A (negpos s) (state s).

Definition setNegpos (p : nat) (s : LossStore) : LossStore :=
  mkLossStore (wo_ s) p (state s).

Definition setWi (A : Matrix) (s : Store) : Store := mkStore A (inner s).

Definition setInner (l : LossStore) (s : Store) : Store := mkStore (wi_ s) l.

(** [Predictions]: the vector of (score, id) pairs handed to [predict],
    with the capacity that [reserve] acts on. *)
Record Predictions := mkPredictions {
  elems : list (R * Z);
  capacity : Z
}.

Definition reserve (n : Z) (h : Predictions) : Predictions :=
  mkPredictions (elems h) (Z.max (capacity h) n).

(** ** The state-and-error monad of a call *)

Inductive error := InvalidArgument | Fatal | Diverges.

Inductive outcome (A : Type) :=
| Done (a : A)
| Raise (e : error).
Arguments Done {A} a.
Arguments Raise {A} e.

Definition M (S A : Type) : Type := S -> S * outcome A.

#[export] Instance M_ret {S} : MRet (M S) := fun A a s => (s, Done a).

#[export] Instance M_bind {S} : MBind (M S) := fun A B f m s =>
  match m s with
  | (s', Done a) => f a s'
  | (s', Raise e) => (s', Raise e)
  end.

Definition raise {S A} (e : error) : M S A := fun s => (s, Raise e).

Definition gets {S A} (f : S -> A) : M S A := fun s => (s, Done (f s)).

Definition modify {S} (f : S -> S) : M S unit := fun s => (f s, Done tt).

(** An operation guarded by assertions: [None] aborts the call. *)
Definition check {S A} (o : option A) : M S A :=
  match o with
  | Some a => mret a
  | None => raise Fatal
  end.

(** Run a computation on a part [T] of the store [S]. *)
Definition zoom {S T A} (get : S -> T) (set : T -> S -> S) (m : M T A)
  : M S A :=
  fun s => let '(t, r) := m (get s) in (set t s, r).

(** The iterator loop [for (auto it = l.cbegin(); it != l.cend(); ++it)]
    running [body] on every element, first to last. *)
Fixpoint forEach {S A} (l : list A) (body : A -> M S unit) : M S unit :=
  match l with
  | [] => mret tt
  | x :: l' => body x;; forEach l' body
  end.

(** A counting loop that carries an accumulator. *)
Fixpoint foldlM `{MBind F, MRet F} {A B} (f : B -> A -> F B) (b : B)
  (l : list A) : F B :=
  match l with
  | [] => mret b
  | x :: l' => b' ← f b x; foldlM f b' l'
  end.

(** [v[i]] for a signed index; [None] out of bounds. *)
Definition at_ {A} (v : list A) (i : Z) : option A :=
  if decide (0 <= i)%Z then v !! Z.to_nat i else None.

(** ** [Model::State] members *)

Definition getLoss (t : State) : R := lossValue_ t / IZR (nexamples_ t).

Definition incrementNExamples (loss : R) (t : State) : State :=
  mkState (lossValue_ t + loss) (nexamples_ t + 1)
    (hidden t) (output t) (grad t) (rng t).

(** ** [Model::computeHidden] *)

Definition computeHidden (input : list Z) : M Store unit :=
  modify (fun s =>
    setInner (setHidden (Vector.zero (hidden (state (inner s)))) (inner s)) s);;
  forEach input (fun it =>
    s ← gets (fun s => s);
    h ← check (addRow1 (hidden (state (inner s))) (wi_ s) it);
    modify (fun s => setInner (setHidden h (inner s)) s));;
  modify (fun s =>
    setInner (setHidden (Vector.mul (hidden (state (inner s)))
                           (1 / INR (length input))) (inner s)) s).

Section Model.

(** The parts of the model that live outside model.cc: the sentinel of
    model.h, the [Loss] object behind [loss_] (it holds [wo_], never
    [wi_]), and the gradient-normalisation flag set by the constructor. *)
Variable kUnlimitedPredictions : Z.
Variable normalizeGradient_ : bool.
Variable forward : list Z -> Z -> R -> bool -> M LossStore R.
Variable lossPredict : Z -> R -> M (Predictions * LossStore) unit.

(** [Model::predict]. *)
Definition predict (input : list Z) (k : Z) (threshold : R)
  : M (Predictions * Store) unit :=
  k ← (if decide (k = kUnlimitedPredictions)
       then gets (fun s => Matrix.size0 (wo_ (inner s.2)))
       else if decide (k <= 0)%Z
            then raise InvalidArgument
            else mret k);
  modify (fun s => (reserve (k + 1) s.1, s.2));;
  zoom snd (fun t s => (s.1, t)) (computeHidden input);;
  zoom (fun s => (s.1, inner s.2)) (fun t s => (t.1, setInner t.2 s.2))
    (lossPredict k threshold).

(** [Model::update]. *)
Definition update (input targets : list Z) (targetIndex : Z) (lr : R)
  : M Store unit :=
  if decide (length input = 0%nat) then mret tt
  else
    computeHidden input;;
    modify (fun s =>
      setInner (setGrad (Vector.zero (grad (state (inner s)))) (inner s)) s);;
    lossValue ← zoom inner setInner (forward targets targetIndex lr true);
    modify (fun s =>
      setInner (mkLossStore (wo_ (inner s)) (negpos (inner s))
                  (incrementNExamples lossValue (state (inner s)))) s);;
    (if normalizeGradient_
     then modify (fun s =>
            setInner (setGrad (Vector.mul (grad (state (inner s)))
                                 (1 / INR (length input))) (inner s)) s)
     else mret tt);;
    forEach input (fun it =>
      s ← gets (fun s => s);
      A ← check (addVectorToRow (wi_ s) (grad (state (inner s))) it 1);
      modify (setWi A)).

End Model.

(** [Model::std_log]. *)
Definition std_log (x : R) : R := ln (x + 1 / 100000).

Section Legacy.

(** The constants of model.h, the tables filled by the constructor, the
    members set from [Args] and the dictionary, and [Model::log]. *)
Variable MAX_SIGMOID : Z.
Variable SIGMOID_TABLE_SIZE : Z.
Variable t_sigmoid_ : list R.
Variable log : R -> R.
Variable neg : Z.
Variable negatives : list Z.
Variable codes : list (list bool).
Variable paths : list (list Z).
Variable osz_ : Z.
Variable quant_ : bool.
Variable qout : bool.
Variable qwo_ : Matrix.

(** The conversion [int64_t(x)]: truncation toward zero. *)
Definition trunc (x : R) : Z :=
  if Rle_dec 0 x then Int_part x else (- Int_part (- x))%Z.

(** [Model::sigmoid]. *)
Definition sigmoid (x : R) : option R :=
  if Rlt_dec x (IZR (- MAX_SIGMOID)) then Some 0
  else if Rgt_dec x (IZR MAX_SIGMOID) then Some 1
  else
    let i := trunc ((x + IZR MAX_SIGMOID) * IZR SIGMOID_TABLE_SIZE
                    / IZR MAX_SIGMOID / 2) in
    at_ t_sigmoid_ i.

(** [Model::binaryLogistic]. *)
Definition binaryLogistic (target : Z) (label : bool) (lr : R)
  : M LossStore R :=
  s ← gets (fun s => s);
  d ← check (dotRow (wo_ s) (hidden (state s)) target);
  score ← check (sigmoid d);
  let alpha := lr * ((if label then 1 else 0) - score) in
  g ← check (addRow (grad (state s)) (wo_ s) target alpha);
  modify (setGrad g);;
  A ← check (addVectorToRow (wo_ s) (hidden (state s)) target alpha);
  modify (setWo A);;
  if label then mret (- log score) else mret (- log (1 - score)).

(** Modelled from the spec: the draw loop of [Model::getNegative] of the
    legacy model.cc.  "ids drawn from a frequency-weighted table ...
    pre-built once; a target equal to the true label is ... re-drawn": the
    table [negatives] is read at the cursor [negpos], the cursor advances
    cyclically, and the draw is repeated while it hits [target].  A table
    holding nothing but [target] makes the loop spin for ever: [Diverges]. *)
Fixpoint drawNegative (fuel : nat) (target : Z) : M LossStore Z :=
  match fuel with
  | O => raise Diverges
  | S fuel' =>
      p ← gets negpos;
      negative ← check (negatives !! p);
      modify (setNegpos ((p + 1) mod length negatives)%nat);;
      if decide (target = negative) then drawNegative fuel' target
      else mret negative
  end.

(** Modelled from the spec: [Model::getNegative].  One round over the
    table and one more draw decide whether the loop ends. *)
Definition getNegative (target : Z) : M LossStore Z :=
  drawNegative (S (length negatives)) target.

(** [Model::negativeSampling]. *)
Definition negativeSampling (target : Z) (lr : R) : M LossStore R :=
  modify (fun s => setGrad (Vector.zero (grad (state s))) s);;
  foldlM (fun loss n =>
    if decide (n = 0)%Z
    then l ← binaryLogistic target true lr; mret (loss + l)
    else t ← getNegative target;
         l ← binaryLogistic t false lr; mret (loss + l))
    0 (seqZ 0 (neg + 1)).

(** [Model::hierarchicalSoftmax]. *)
Definition hierarchicalSoftmax (target : Z) (lr : R) : M LossStore R :=
  modify (fun s => setGrad (Vector.zero (grad (state s))) s);;
  binaryCode ← check (at_ codes target);
  pathToRoot ← check (at_ paths target);
  foldlM (fun loss i =>
    node ← check (at_ pathToRoot i);
    bit ← check (at_ binaryCode i);
    l ← binaryLogistic node bit lr; mret (loss + l))
    0 (seqZ 0 (Z.of_nat (length pathToRoot))).

(** [Model::computeOutputSoftmax]: the new contents of [output]. *)
Definition computeOutputSoftmax (wo : Matrix) (hidden output : Vector)
  : option Vector :=
  output ← (if quant_ && qout then mulMatrix output qwo_ hidden
            else mulMatrix output wo hidden);
  max ← at_ output 0;
  max ← foldlM (fun max i => x ← at_ output i; Some (Rmax x max))
         max (seqZ 0 osz_);
  oz ← foldlM (fun '(output, z) i =>
          x ← at_ output i;
          let e := exp (x - max) in
          Some (<[Z.to_nat i := e]> output, z + e))
        (output, 0) (seqZ 0 osz_);
  foldlM (fun output i =>
    x ← at_ output i; Some (<[Z.to_nat i := x / oz.2]> output))
    oz.1 (seqZ 0 osz_).

End Legacy.

(** ** Specification-side vocabulary *)

(** The sum of a list of reals. *)
Definition Rsum (l : list R) : R := foldr Rplus 0 l.

(** Entry [(i, j)] of a matrix ([0] where there is none). *)
Definition entry (A : Matrix) (i : Z) (j : nat) : R :=
  default 0 (r ← Matrix.row A i; r !! j).

(** The componentwise arithmetic mean of the rows of [A] named by [ids],
    over [dim] columns. *)
Definition meanRows (A : Matrix) (ids : list Z) (dim : nat) : Vector :=
  (fun j => Rsum ((fun i => entry A i j) <$> ids) / INR (length ids))
    <$> seq 0 dim.

(** Every id names a row of [A] that has [dim] columns. *)
Definition rowsOk (A : Matrix) (dim : nat) (ids : list Z) : Prop :=
  Forall (fun i => exists r, Matrix.row A i = Some r /\ length r = dim) ids.

(** [predict] from the point where [k] is settled: reserve, hidden, loss. *)
Definition predictFrom (lossPredict : Z -> R -> M (Predictions * LossStore) unit)
  (input : list Z) (k : Z) (threshold : R) : M (Predictions * Store) unit :=
  modify (fun s => (reserve (k + 1) s.1, s.2));;
  zoom snd (fun t s => (s.1, t)) (computeHidden input);;
  zoom (fun s => (s.1, inner s.2)) (fun t s => (t.1, setInner t.2 s.2))
    (lossPredict k threshold).

(** How often [i] occurs in [ids]. *)
Definition occ (ids : list Z) (i : Z) : nat := count_occ Z.eq_dec ids i.

(** Every row [i] of [A] with [occ ids i] times [g] added to it:
    entry [(i, j)] grows by [occ ids i * g[j]]. *)
Definition scatterRows (A : Matrix) (g : Vector) (ids : list Z) : Matrix :=
  imap (fun i r =>
          imap (fun j x =>
                  x + INR (occ ids (Z.of_nat i)) * default 0 (g !! j)) r) A.

(** The store on which [update] starts the loss evaluation: [hidden] is
    the mean of the input rows, [grad] is zero-filled. *)
Definition preLoss (input : list Z) (s : Store) : LossStore :=
  setGrad (Vector.zero (grad (state (inner s))))
    (setHidden (meanRows (wi_ s) input (length (hidden (state (inner s)))))
       (inner s)).

(** The gradient that [update] scatters: what the loss left in [grad],
    divided by the input length in normalise-gradient mode. *)
Definition scattered (normalizeGradient : bool) (input : list Z)
  (l : LossStore) : Vector :=
  if normalizeGradient
  then Vector.mul (grad (state l)) (1 / INR (length input))
  else grad (state l).

(** The store [update] leaves when the loss evaluation ended in [l] with
    loss value [loss]. *)
Definition postUpdate (normalizeGradient : bool) (input : list Z)
  (s : Store) (l : LossStore) (loss : R) : Store :=
  mkStore (scatterRows (wi_ s) (scattered normalizeGradient input l) input)
    (setGrad (scattered normalizeGradient input l)
       (mkLossStore (wo_ l) (negpos l)
          (incrementNExamples loss (state l)))).

(** The position of [x] on the grid of the sigmoid table. *)
Definition gridPos (MAX_SIGMOID SIGMOID_TABLE_SIZE : Z) (x : R) : R :=
  (x + IZR MAX_SIGMOID) * IZR SIGMOID_TABLE_SIZE / IZR MAX_SIGMOID / 2.

(** The sigmoid as the specification words it: clamped outside the domain,
    and inside it read from the table "with linear interpolation" between
    the two entries around [x]. *)
Definition sigmoidInterp (MAX_SIGMOID SIGMOID_TABLE_SIZE : Z)
  (t_sigmoid_ : list R) (x : R) : option R :=
  if Rlt_dec x (IZR (- MAX_SIGMOID)) then Some 0
  else if Rgt_dec x (IZR MAX_SIGMOID) then Some 1
  else
    let p := gridPos MAX_SIGMOID SIGMOID_TABLE_SIZE x in
    let i := Int_part p in
    lo ← at_ t_sigmoid_ i;
    let hi := default lo (at_ t_sigmoid_ (i + 1)) in
    Some (lo + (p - IZR i) * (hi - lo)).

(** The logistic function. *)
Definition logistic (x : R) : R := 1 / (1 + exp (- x)).

(** Modelled from the spec: [Model::initSigmoid], the "precomputed lookup
    table over a fixed domain": the logistic function at the
    [SIGMOID_TABLE_SIZE + 1] grid points of [-MAX_SIGMOID, MAX_SIGMOID]. *)
Definition initSigmoid (MAX_SIGMOID SIGMOID_TABLE_SIZE : Z) : list R :=
  (fun i : nat =>
     logistic (IZR (Z.of_nat i * 2 * MAX_SIGMOID) / IZR SIGMOID_TABLE_SIZE
               - IZR MAX_SIGMOID))
  <$> seq 0 (Z.to_nat (SIGMOID_TABLE_SIZE + 1)).

(** The table has one entry per grid point of a non-degenerate domain. *)
Definition tableOk (MAX_SIGMOID SIGMOID_TABLE_SIZE : Z) (t : list R) : Prop :=
  (0 < MAX_SIGMOID)%Z /\ (0 <= SIGMOID_TABLE_SIZE)%Z
  /\ length t = Z.to_nat (SIGMOID_TABLE_SIZE + 1).

(** The entries of the table are non-decreasing and lie in [0, 1]. *)
Definition tableMonotone (t : list R) : Prop :=
  (forall (i j : nat) (x y : R),
     (i <= j)%nat -> t !! i = Some x -> t !! j = Some y -> x <= y)
  /\ Forall (fun x => 0 <= x <= 1) t.

(** The dot product of two vectors. *)
Definition dot (x y : Vector) : R := Rsum (zip_with Rmult x y).

(** [y + a * x], componentwise. *)
Definition axpy (a : R) (x y : Vector) : Vector :=
  zip_with (fun yi xi => yi + a * xi) y x.

(** The buffers of a loss evaluation have the embedding dimension [dim],
    and so has every output row named by [ids]. *)
Definition lossOk (dim : nat) (ids : list Z) (s : LossStore) : Prop :=
  length (hidden (state s)) = dim
  /\ length (grad (state s)) = dim
  /\ rowsOk (wo_ s) dim ids.

(** The store after one binary-logistic step on [target] that moved by
    [alpha]. *)
Definition afterStep (target : Z) (alpha : R) (row : Vector) (s : LossStore)
  : LossStore :=
  setWo (<[Z.to_nat target := axpy alpha (hidden (state s)) row]> (wo_ s))
    (setGrad (axpy alpha row (grad (state s))) s).

(** A sequence of binary-logistic steps, one per (output row, label) pair,
    first to last; the losses of the steps, in order. *)
Fixpoint steps (MAX_SIGMOID SIGMOID_TABLE_SIZE : Z) (t_sigmoid_ : list R)
  (log : R -> R) (l : list (Z * bool)) (lr : R) : M LossStore (list R) :=
  match l with
  | [] => mret []
  | (target, label) :: l' =>
      x ← binaryLogistic MAX_SIGMOID SIGMOID_TABLE_SIZE t_sigmoid_ log
            target label lr;
      xs ← steps MAX_SIGMOID SIGMOID_TABLE_SIZE t_sigmoid_ log l' lr;
      mret (x :: xs)
  end.

(** The product of a matrix with a vector: one dot product per row. *)
Definition scores (A : Matrix) (h : Vector) : Vector :=
  (fun r => dot r h) <$> A.

(** The softmax of [sc] normalised around the value [mx]. *)
Definition softmaxAround (mx : R) (sc : Vector) : Vector :=
  (fun x => exp (x - mx) / Rsum ((fun y => exp (y - mx)) <$> sc)) <$> sc.

(** ** A small model used in the examples

    Dimension 2, three input rows, three output rows, the logistic table
    over [-8, 8] with 512 cells, and the natural logarithm for
    [Model::log]. *)

Definition exWi : Matrix := [[1; 2]; [3; 4]; [5; 6]].

Definition exWo : Matrix := [[0; 0]; [1; 0]; [0; 1]].

Definition exState : State := mkState 0 0 [7; 7] [0; 0; 0] [9; 9] 1.

Definition exLoss : LossStore := mkLossStore exWo 0 exState.

Definition exStore : Store := mkStore exWi exLoss.

Definition exInput : list Z := [0; 2; 0]%Z.

Definition exTable : list R := initSigmoid 8 512.

Definition exNegatives : list Z := [0; 1; 2; 1]%Z.

Definition exCodes : list (list bool) := [[true; false]; [false; true]].

Definition exPaths : list (list Z) := [[1; 0]; [2; 0]]%Z.

Definition exHeap : Predictions := mkPredictions [] 0.

Definition exForward : list Z -> Z -> R -> bool -> M LossStore R :=
  fun _ _ lr _ => negativeSampling 8 512 exTable ln 2 exNegatives 1 lr.

Definition exStep : list Z -> Z -> R -> bool -> M LossStore R :=
  fun _ _ lr _ => binaryLogistic 8 512 exTable ln 1 true lr.

Definition exLossPredict : Z -> R -> M (Predictions * LossStore) unit :=
  fun _ _ => mret tt.

(** ** Further definitions *)

(** [Model::State::State]: counters at zero, buffers of the given sizes
    (a [Vector] of size [m] is created zero-filled), generator seeded. *)
Definition newState (hiddenSize outputSize seed : Z) : State :=
  mkState 0 0 (replicate (Z.to_nat hiddenSize) 0)
    (replicate (Z.to_nat outputSize) 0)
    (replicate (Z.to_nat hiddenSize) 0) seed.

(** The state after recording the losses [ls] one by one. *)
Definition recordAll (ls : list R) (t : State) : State :=
  foldl (fun t l => incrementNExamples l t) t ls.

(** [s'] differs from [s] at most in the output rows picked by [touched]
    and in the contents of the gradient buffer. *)
Definition sameExcept (touched : Z -> Prop) (s s' : LossStore) : Prop :=
  length (wo_ s') = length (wo_ s)
  /\ (forall j : nat, ~ touched (Z.of_nat j) -> wo_ s' !! j = wo_ s !! j)
  /\ hidden (state s') = hidden (state s)
  /\ output (state s') = output (state s)
  /\ lossValue_ (state s') = lossValue_ (state s)
  /\ nexamples_ (state s') = nexamples_ (state s)
  /\ rng (state s') = rng (state s)
  /\ negpos s' = negpos s
  /\ length (grad (state s')) = length (grad (state s)).

(** A loss whose evaluation fails at once, for the examples. *)
Definition exFail : list Z -> Z -> R -> bool -> M LossStore R :=
  fun _ _ _ _ => raise Fatal.

(** * Proofs *)

Ltac munfold :=
  unfold mbind, M_bind, mret, M_ret, modify, gets, check, raise, zoom in *.

Lemma run_bind {S A B} (m : M S A) (k : A -> M S B) (s : S) :
  (m ≫= k) s
  = match m s with
    | (s', Done a) => k a s'
    | (s', Raise e) => (s', Raise e)
    end.
Proof. reflexivity. Qed.

Lemma run_modify {S B} (f : S -> S) (k : unit -> M S B) (s : S) :
  (modify f ≫= k) s = k tt (f s).
Proof. reflexivity. Qed.

Lemma run_assoc {S A B C} (m : M S A) (f : A -> M S B) (g : B -> M S C)
  (s : S) :
  ((m ≫= f) ≫= g) s = (m ≫= fun a => f a ≫= g) s.
Proof. unfold mbind, M_bind. by destruct (m s) as [s' []]. Qed.

Lemma run_ret {S A B} (a : A) (k : A -> M S B) (s : S) :
  (mret a ≫= k) s = k a s.
Proof. reflexivity. Qed.

Lemma run_check {S A B} (a : A) (k : A -> M S B) (s : S) :
  (check (Some a) ≫= k) s = k a s.
Proof. reflexivity. Qed.

Lemma run_gets {S A B} (f : S -> A) (k : A -> M S B) (s : S) :
  (gets f ≫= k) s = k (f s) s.
Proof. reflexivity. Qed.

Lemma run_raise {S A B} (e : error) (k : A -> M S B) (s : S) :
  (raise e ≫= k) s = (s, Raise e).
Proof. reflexivity. Qed.

Lemma run_check_None {S A B} (k : A -> M S B) (s : S) :
  (check None ≫= k) s = (s, Raise Fatal).
Proof. reflexivity. Qed.

Ltac proj_simpl :=
  cbn [inner wi_ wo_ negpos state lossValue_ nexamples_ hidden output grad
       rng setInner setHidden setGrad setWo setNegpos setWi fst snd].

Ltac mrun :=
  repeat first
    [ rewrite run_assoc | rewrite run_ret | rewrite run_check
    | rewrite run_modify | rewrite run_gets ].

Lemma store_eta (s : Store) :
  setInner (setHidden (hidden (state (inner s))) (inner s)) s = s.
Proof. by destruct s as [? [? ? []]]. Qed.

(** The accumulation loop of [computeHidden] as a pure fold. *)
Lemma forEach_addRow1 (ids : list Z) (s : Store) (h : Vector) :
  foldlM (fun h i => addRow1 h (wi_ s) i) (hidden (state (inner s))) ids
    = Some h ->
  forEach ids (fun it =>
      s ← gets (fun s => s);
      h ← check (addRow1 (hidden (state (inner s))) (wi_ s) it);
      modify (fun s => setInner (setHidden h (inner s)) s)) s
    = (setInner (setHidden h (inner s)) s, Done tt).
Proof.
  revert s h. induction ids as [|i ids IH]; intros s h; simpl.
  - intros [= <-]. by rewrite store_eta.
  - destruct (addRow1 _ _ i) as [h1|] eqn:E1; simpl; [|done].
    intros Hrest. munfold. rewrite E1. simpl.
    set (s1 := setInner (setHidden h1 (inner s)) s).
    specialize (IH s1 h). unfold s1 in IH at 1 2. simpl in IH.
    munfold. rewrite (IH Hrest). by destruct s as [? [? ? []]].
Qed.

Lemma addRow1_Some (h : Vector) (A : Matrix) (i : Z) (r : Vector) :
  Matrix.row A i = Some r -> length r = length h ->
  addRow1 h A i = Some (zip_with Rplus h r).
Proof.
  intros Hr Hlen. unfold addRow1. rewrite Hr. cbn.
  by rewrite decide_True.
Qed.

Lemma addRow1_sum (A : Matrix) (dim : nat) (ids : list Z) (h : Vector) :
  rowsOk A dim ids -> length h = dim ->
  foldlM (fun h i => addRow1 h A i) h ids
    = Some (imap (fun j x => x + Rsum ((fun i => entry A i j) <$> ids)) h).
Proof.
  intros Hok. revert h. induction Hok as [|i ids [r [Hr Hlen]] _ IH];
    intros h Hh.
  - cbn. f_equal. apply list_eq; intros j. rewrite list_lookup_imap.
    destruct (h !! j) as [x|]; cbn; [|done]. f_equal. lra.
  - cbn [foldlM]. rewrite (addRow1_Some h A i r) by congruence.
    cbn [mbind option_bind].
    rewrite IH by (rewrite length_zip_with; lia).
    f_equal. apply list_eq; intros j.
    rewrite !list_lookup_imap, lookup_zip_with.
    destruct (h !! j) as [x|] eqn:Ex; [|done].
    destruct (lookup_lt_is_Some_2 r j) as [y Ey].
    { apply lookup_lt_Some in Ex. lia. }
    rewrite Ey. cbn. f_equal. unfold entry. rewrite Hr. cbn.
    rewrite Ey. unfold Rsum. cbn. lra.
Qed.

Lemma computeHidden_run (input : list Z) (s : Store) (h0 : Vector) :
  rowsOk (wi_ s) (length (hidden (state (inner s)))) input ->
  length h0 = length (hidden (state (inner s))) ->
  computeHidden input (setInner (setHidden h0 (inner s)) s)
  = (setInner (setHidden
       (meanRows (wi_ s) input (length (hidden (state (inner s)))))
       (inner s)) s, Done tt).
Proof.
  intros Hok Hh0. unfold computeHidden. rewrite run_modify, run_bind.
  set (s0 := setInner (setHidden (Vector.zero _) _) _).
  assert (Hlen0 : length (hidden (state (inner s0)))
                  = length (hidden (state (inner s)))).
  { unfold s0, Vector.zero; cbn. by rewrite length_fmap. }
  rewrite (forEach_addRow1 input s0 _
             (addRow1_sum (wi_ s0) _ input _ Hok Hlen0)).
  unfold modify. f_equal.
  unfold setInner, setHidden; cbn. do 3 f_equal.
  unfold meanRows, Vector.mul, Vector.zero. apply list_eq; intros j.
  rewrite !list_lookup_fmap, list_lookup_imap, list_lookup_fmap.
  destruct (decide (j < length h0)%nat) as [Hj|Hj].
  - destruct (lookup_lt_is_Some_2 h0 j Hj) as [x Ex]. rewrite Ex. cbn.
    rewrite lookup_seq_lt by lia. cbn. f_equal. lra.
  - rewrite lookup_ge_None_2 by lia. cbn.
    by rewrite lookup_seq_ge by lia.
Qed.

Lemma computeHidden_run' (input : list Z) (s : Store) :
  rowsOk (wi_ s) (length (hidden (state (inner s)))) input ->
  computeHidden input s
  = (setInner (setHidden
       (meanRows (wi_ s) input (length (hidden (state (inner s)))))
       (inner s)) s, Done tt).
Proof.
  intros Hok.
  rewrite <- (computeHidden_run input s (hidden (state (inner s))) Hok eq_refl).
  by rewrite store_eta.
Qed.

(** C1. For a non-empty list of ids that name rows of the input matrix,
    [computeHidden] succeeds and changes nothing but [state.hidden], which
    becomes the componentwise arithmetic mean of the referenced rows; the
    result is the same whatever [hidden] held before (only its size
    matters, and it is kept). *)
Theorem computeHidden_mean (input : list Z) (s : Store) :
  input <> [] ->
  rowsOk (wi_ s) (length (hidden (state (inner s)))) input ->
  computeHidden input s
    = (setInner (setHidden
         (meanRows (wi_ s) input (length (hidden (state (inner s)))))
         (inner s)) s, Done tt)
  /\ forall h0 : Vector,
       length h0 = length (hidden (state (inner s))) ->
       computeHidden input (setInner (setHidden h0 (inner s)) s)
       = computeHidden input s.
Proof.
  intros _ Hok. split.
  - by apply computeHidden_run'.
  - intros h0 Hh0.
    by rewrite computeHidden_run, computeHidden_run'.
Qed.

(** *** The scatter loop of [update] *)

Lemma row_lookup (A : Matrix) (i : Z) (r : Vector) :
  Matrix.row A i = Some r ->
  (0 <= i)%Z /\ A !! Z.to_nat i = Some r.
Proof. unfold Matrix.row. case_decide; [done|discriminate]. Qed.

Lemma row_insert (A : Matrix) (i j : Z) (r : Vector) :
  (0 <= i)%Z -> (Z.to_nat i < length A)%nat ->
  Matrix.row (<[Z.to_nat i := r]> A) j
  = if decide (j = i) then Some r else Matrix.row A j.
Proof.
  intros Hi Hlt. unfold Matrix.row.
  destruct (decide (j = i)) as [->|Hne].
  - rewrite decide_True by done. by apply list_lookup_insert_eq.
  - case_decide; [|done]. apply list_lookup_insert_ne. lia.
Qed.

Lemma rowsOk_insert (A : Matrix) (dim : nat) (ids : list Z) (i : Z)
  (r : Vector) :
  (0 <= i)%Z -> (Z.to_nat i < length A)%nat -> length r = dim ->
  rowsOk A dim ids -> rowsOk (<[Z.to_nat i := r]> A) dim ids.
Proof.
  intros Hi Hlt Hr Hok. eapply Forall_impl; [exact Hok|].
  intros j [rj [Hj Hlen]]. rewrite row_insert by done.
  case_decide; eauto.
Qed.

Lemma addVectorToRow_Some (A : Matrix) (g : Vector) (i : Z) (a : R)
  (r : Vector) :
  Matrix.row A i = Some r -> length r = length g ->
  addVectorToRow A g i a
  = Some (<[Z.to_nat i := zip_with (fun x y => x + a * y) r g]> A).
Proof.
  intros Hr Hlen. unfold addVectorToRow. rewrite Hr. cbn.
  by rewrite decide_True.
Qed.

Lemma scatter_fold (g : Vector) (ids : list Z) (A : Matrix) :
  rowsOk A (length g) ids ->
  foldlM (fun A it => addVectorToRow A g it 1) A ids
  = Some (scatterRows A g ids).
Proof.
  revert A. induction ids as [|it ids IH]; intros A Hok.
  - cbn. f_equal. unfold scatterRows. apply list_eq; intros i.
    rewrite list_lookup_imap. destruct (A !! i) as [r|] eqn:Er; [|done].
    cbn. f_equal. apply list_eq; intros j. rewrite list_lookup_imap.
    destruct (r !! j) as [x|] eqn:Ex; [|done]. cbn. f_equal. lra.
  - apply Forall_cons in Hok as [[r [Hr Hlen]] Hok].
    destruct (row_lookup _ _ _ Hr) as [Hit Hit'].
    assert (Hlt : (Z.to_nat it < length A)%nat) by by eapply lookup_lt_Some.
    cbn [foldlM]. rewrite (addVectorToRow_Some A g it 1 r) by done.
    cbn [mbind option_bind]. rewrite IH.
    2:{ apply rowsOk_insert; try done. rewrite length_zip_with. lia. }
    f_equal. unfold scatterRows. apply list_eq; intros i.
    rewrite !list_lookup_imap.
    destruct (decide (i = Z.to_nat it)) as [->|Hne].
    + rewrite list_lookup_insert_eq by done. rewrite Hit'. cbn. f_equal.
      apply list_eq; intros j.
      rewrite !list_lookup_imap, lookup_zip_with.
      destruct (r !! j) as [x|] eqn:Ex; [|done].
      destruct (lookup_lt_is_Some_2 g j) as [y Ey].
      { apply lookup_lt_Some in Ex. lia. }
      rewrite Ey. cbn. f_equal. unfold occ. cbn.
      rewrite Z2Nat.id by done. destruct (Z.eq_dec it it); [|done].
      rewrite S_INR. lra.
    + rewrite list_lookup_insert_ne by done.
      destruct (A !! i) as [ri|]; [|done]. cbn. f_equal.
      apply list_eq; intros j. rewrite !list_lookup_imap.
      destruct (ri !! j) as [x|]; [|done]. cbn. do 3 f_equal.
      unfold occ. cbn. destruct (Z.eq_dec it (Z.of_nat i)); [lia|done].
Qed.

Lemma forEach_scatter (ids : list Z) (s : Store) (A : Matrix) :
  foldlM (fun A it => addVectorToRow A (grad (state (inner s))) it 1)
    (wi_ s) ids = Some A ->
  forEach ids (fun it =>
      s ← gets (fun s => s);
      A ← check (addVectorToRow (wi_ s) (grad (state (inner s))) it 1);
      modify (setWi A)) s
    = (setWi A s, Done tt).
Proof.
  revert s A. induction ids as [|i ids IH]; intros s A.
  - cbn. intros [= <-]. by destruct s.
  - cbn [foldlM forEach].
    destruct (addVectorToRow _ _ i 1) as [A1|] eqn:E1; [|done].
    cbn [mbind option_bind]. intros Hrest.
    rewrite run_bind, run_bind. cbn [gets]. rewrite run_bind, E1. cbn.
    by rewrite (IH (setWi A1 s) A Hrest).
Qed.

(** *** One run of [update] *)

Lemma run_zoom {S T A B} (get : S -> T) (set : T -> S -> S) (m : M T A)
  (k : A -> M S B) (s : S) :
  (zoom get set m ≫= k) s
  = match m (get s) with
    | (t, Done a) => k a (set t s)
    | (t, Raise e) => (set t s, Raise e)
    end.
Proof. rewrite run_bind. unfold zoom. by destruct (m (get s)) as [t []]. Qed.

Section UpdateRun.

Context (normalizeGradient : bool)
  (forward : list Z -> Z -> R -> bool -> M LossStore R)
  (input targets : list Z) (targetIndex : Z) (lr : R) (s : Store).

Hypothesis input_nonempty : input <> [].
Hypothesis input_ok : rowsOk (wi_ s) (length (hidden (state (inner s)))) input.

(** A loss evaluation that fails makes [update] fail, with the input
    matrix as it was. *)
Lemma update_forward_error (l : LossStore) (e : error) :
  forward targets targetIndex lr true (preLoss input s) = (l, Raise e) ->
  update normalizeGradient forward input targets targetIndex lr s
  = (mkStore (wi_ s) l, Raise e).
Proof.
  intros Hfw. unfold update.
  rewrite decide_False by (by destruct input).
  rewrite run_bind, (computeHidden_run' input s input_ok).
  rewrite run_modify, run_zoom.
  match goal with |- context [forward _ _ _ _ ?x] =>
    change x with (preLoss input s) end.
  by rewrite Hfw.
Qed.

(** A loss evaluation that returns [loss] and leaves a gradient of the
    embedding dimension is followed by the bookkeeping and the scatter. *)
Lemma update_run (l : LossStore) (loss : R) :
  forward targets targetIndex lr true (preLoss input s) = (l, Done loss) ->
  length (grad (state l)) = length (hidden (state (inner s))) ->
  update normalizeGradient forward input targets targetIndex lr s
  = (postUpdate normalizeGradient input s l loss, Done tt).
Proof.
  intros Hfw Hg. unfold update.
  rewrite decide_False by (by destruct input).
  rewrite run_bind, (computeHidden_run' input s input_ok).
  rewrite run_modify, run_zoom.
  match goal with |- context [forward _ _ _ _ ?x] =>
    change x with (preLoss input s) end.
  rewrite Hfw. rewrite run_modify, run_bind.
  set (s1 := setInner _ _).
  assert (Hnorm :
    (if normalizeGradient
     then modify (fun s0 : Store =>
            setInner (setGrad (Vector.mul (grad (state (inner s0)))
                                 (1 / INR (length input))) (inner s0)) s0)
     else mret tt) s1
    = (mkStore (wi_ s)
         (setGrad (scattered normalizeGradient input l)
            (mkLossStore (wo_ l) (negpos l)
               (incrementNExamples loss (state l)))), Done tt)).
  { unfold scattered, s1. destruct normalizeGradient; [done|].
    by destruct l as [? ? []]. }
  rewrite Hnorm. clear Hnorm s1.
  set (s2 := mkStore _ _).
  assert (Hlen : length (scattered normalizeGradient input l)
                 = length (hidden (state (inner s)))).
  { unfold scattered, Vector.mul. destruct normalizeGradient; [|done].
    by rewrite length_fmap. }
  rewrite (forEach_scatter input s2
             (scatterRows (wi_ s) (scattered normalizeGradient input l) input)).
  - done.
  - unfold s2. cbn. apply scatter_fold. by rewrite Hlen.
Qed.

End UpdateRun.

(** C3. [update] with an empty input list returns at once: the store (both
    matrices and every field of the worker state) is the one it was given,
    and the call completes normally. *)
Theorem update_empty_noop (normalizeGradient : bool)
  (forward : list Z -> Z -> R -> bool -> M LossStore R)
  (targets : list Z) (targetIndex : Z) (lr : R) (s : Store) :
  update normalizeGradient forward [] targets targetIndex lr s = (s, Done tt).
Proof. reflexivity. Qed.

(** C8. [predict] signals the invalid-argument condition for every
    [k <= 0] that is not the sentinel, with the heap and the store exactly
    as they were passed in; with the sentinel it runs as it does from the
    point where [k] is settled with [k] the row count of the output matrix,
    which is also how every positive non-sentinel [k] runs. *)
Theorem predict_k (kUnlimitedPredictions : Z)
  (lossPredict : Z -> R -> M (Predictions * LossStore) unit)
  (input : list Z) (threshold : R) (heap : Predictions) (s : Store) :
  (forall k : Z, (k <= 0)%Z -> k <> kUnlimitedPredictions ->
     predict kUnlimitedPredictions lossPredict input k threshold (heap, s)
     = ((heap, s), Raise InvalidArgument))
  /\ predict kUnlimitedPredictions lossPredict input kUnlimitedPredictions
       threshold (heap, s)
     = predictFrom lossPredict input (Matrix.size0 (wo_ (inner s)))
         threshold (heap, s)
  /\ (forall k : Z, (0 < k)%Z -> k <> kUnlimitedPredictions ->
     predict kUnlimitedPredictions lossPredict input k threshold (heap, s)
     = predictFrom lossPredict input k threshold (heap, s)).
Proof.
  repeat split.
  - intros k Hk Hne. unfold predict. rewrite run_bind.
    rewrite decide_False by done. by rewrite decide_True.
  - unfold predict. rewrite run_bind. by rewrite decide_True.
  - intros k Hk Hne. unfold predict. rewrite run_bind.
    rewrite decide_False by done. by rewrite decide_False by lia.
Qed.

(** ** The sigmoid table *)

Lemma trunc_nonneg (x : R) : 0 <= x -> trunc x = Int_part x.
Proof. intros Hx. unfold trunc. by destruct (Rle_dec 0 x). Qed.

Lemma Int_part_le (x y : R) : x <= y -> (Int_part x <= Int_part y)%Z.
Proof.
  intros Hxy.
  destruct (base_Int_part x) as [Hx _], (base_Int_part y) as [_ Hy].
  apply Z.lt_succ_r, lt_IZR. rewrite succ_IZR. lra.
Qed.

Lemma Int_part_range (x : R) (n : Z) :
  0 <= x <= IZR n -> (0 <= Int_part x <= n)%Z.
Proof.
  intros [H0 Hn]. destruct (base_Int_part x) as [Hle Hgt]. split.
  - apply Z.lt_succ_r, lt_IZR. rewrite succ_IZR. lra.
  - apply le_IZR. lra.
Qed.

Lemma Int_part_half (n : Z) : Int_part (IZR n / 2) = (n / 2)%Z.
Proof.
  symmetry. apply Int_part_spec.
  pose proof (Z.div_mod n 2 ltac:(lia)) as Hdm.
  pose proof (Z.mod_pos_bound n 2 ltac:(lia)) as [Hlo Hhi].
  assert (HR : IZR n = 2 * IZR (n / 2) + IZR (n mod 2)).
  { rewrite Hdm at 1. by rewrite plus_IZR, mult_IZR. }
  apply IZR_le in Hlo. apply IZR_lt in Hhi. lra.
Qed.

Section Sigmoid.

Context (MAX_SIGMOID SIGMOID_TABLE_SIZE : Z) (t_sigmoid_ : list R).
Hypothesis table_ok : tableOk MAX_SIGMOID SIGMOID_TABLE_SIZE t_sigmoid_.

Let m_pos : 0 < IZR MAX_SIGMOID.
Proof. destruct table_ok as [? _]. by apply IZR_lt. Qed.

Let sz_nonneg : 0 <= IZR SIGMOID_TABLE_SIZE.
Proof. destruct table_ok as (_ & ? & _). by apply IZR_le. Qed.

Lemma gridPos_eq (x : R) :
  gridPos MAX_SIGMOID SIGMOID_TABLE_SIZE x
  = (x + IZR MAX_SIGMOID)
    * (IZR SIGMOID_TABLE_SIZE / (2 * IZR MAX_SIGMOID)).
Proof. unfold gridPos. field. lra. Qed.

Lemma gridPos_step : 0 <= IZR SIGMOID_TABLE_SIZE / (2 * IZR MAX_SIGMOID).
Proof.
  apply Rmult_le_pos; [lra|]. apply Rlt_le, Rinv_0_lt_compat. lra.
Qed.

Lemma gridPos_le (x y : R) :
  x <= y ->
  gridPos MAX_SIGMOID SIGMOID_TABLE_SIZE x
  <= gridPos MAX_SIGMOID SIGMOID_TABLE_SIZE y.
Proof.
  intros Hxy. rewrite !gridPos_eq.
  apply Rmult_le_compat_r; [apply gridPos_step|lra].
Qed.

Lemma gridPos_range (x : R) :
  - IZR MAX_SIGMOID <= x <= IZR MAX_SIGMOID ->
  0 <= gridPos MAX_SIGMOID SIGMOID_TABLE_SIZE x <= IZR SIGMOID_TABLE_SIZE.
Proof.
  intros [Hlo Hhi]. split.
  - rewrite gridPos_eq. apply Rmult_le_pos; [lra|apply gridPos_step].
  - etransitivity; [apply (gridPos_le x (IZR MAX_SIGMOID) Hhi)|].
    right. unfold gridPos. field. lra.
Qed.

(** Inside the domain [sigmoid] is the table entry below the grid
    position, and that entry exists. *)
Lemma sigmoid_inside (x : R) :
  - IZR MAX_SIGMOID <= x <= IZR MAX_SIGMOID ->
  let i := Int_part (gridPos MAX_SIGMOID SIGMOID_TABLE_SIZE x) in
  (0 <= i <= SIGMOID_TABLE_SIZE)%Z
  /\ sigmoid MAX_SIGMOID SIGMOID_TABLE_SIZE t_sigmoid_ x
     = t_sigmoid_ !! Z.to_nat i
  /\ is_Some (t_sigmoid_ !! Z.to_nat i).
Proof.
  intros Hx i. pose proof (gridPos_range x Hx) as Hp.
  pose proof (Int_part_range _ _ Hp) as Hi. fold i in Hi.
  split; [done|]. split.
  - unfold sigmoid. rewrite opp_IZR.
    destruct (Rlt_dec x (- IZR MAX_SIGMOID)); [lra|].
    destruct (Rgt_dec x (IZR MAX_SIGMOID)); [lra|].
    fold (gridPos MAX_SIGMOID SIGMOID_TABLE_SIZE x).
    rewrite trunc_nonneg by lra. fold i. unfold at_.
    by rewrite decide_True by lia.
  - apply lookup_lt_is_Some_2. destruct table_ok as (_ & _ & ->). lia.
Qed.

Lemma sigmoid_below (x : R) :
  x < - IZR MAX_SIGMOID ->
  sigmoid MAX_SIGMOID SIGMOID_TABLE_SIZE t_sigmoid_ x = Some 0.
Proof.
  intros Hx. unfold sigmoid. rewrite opp_IZR.
  by destruct (Rlt_dec x (- IZR MAX_SIGMOID)).
Qed.

Lemma sigmoid_above (x : R) :
  IZR MAX_SIGMOID < x ->
  sigmoid MAX_SIGMOID SIGMOID_TABLE_SIZE t_sigmoid_ x = Some 1.
Proof.
  intros Hx. unfold sigmoid. rewrite opp_IZR.
  destruct (Rlt_dec x (- IZR MAX_SIGMOID)); [lra|].
  by destruct (Rgt_dec x (IZR MAX_SIGMOID)).
Qed.

(** [sigmoid] never fails on a well-sized table. *)
Lemma sigmoid_total (x : R) :
  is_Some (sigmoid MAX_SIGMOID SIGMOID_TABLE_SIZE t_sigmoid_ x).
Proof.
  destruct (Rlt_dec x (- IZR MAX_SIGMOID)) as [Hlo|Hlo].
  { rewrite sigmoid_below by done. eauto. }
  destruct (Rlt_dec (IZR MAX_SIGMOID) x) as [Hhi|Hhi].
  { rewrite sigmoid_above by done. eauto. }
  destruct (sigmoid_inside x ltac:(lra)) as (_ & -> & ?). done.
Qed.

Lemma sigmoid_range (x y : R) :
  tableMonotone t_sigmoid_ ->
  sigmoid MAX_SIGMOID SIGMOID_TABLE_SIZE t_sigmoid_ x = Some y ->
  0 <= y <= 1.
Proof.
  intros [_ Hrange] Hy.
  destruct (Rlt_dec x (- IZR MAX_SIGMOID)) as [Hlo|Hlo].
  { rewrite sigmoid_below in Hy by done. injection Hy as <-. lra. }
  destruct (Rlt_dec (IZR MAX_SIGMOID) x) as [Hhi|Hhi].
  { rewrite sigmoid_above in Hy by done. injection Hy as <-. lra. }
  destruct (sigmoid_inside x ltac:(lra)) as (_ & Heq & _).
  rewrite Heq in Hy. by eapply (Forall_lookup_1 _ _ _ _ Hrange Hy).
Qed.

Lemma sigmoid_monotone (x y sx sy : R) :
  tableMonotone t_sigmoid_ ->
  x <= y ->
  sigmoid MAX_SIGMOID SIGMOID_TABLE_SIZE t_sigmoid_ x = Some sx ->
  sigmoid MAX_SIGMOID SIGMOID_TABLE_SIZE t_sigmoid_ y = Some sy ->
  sx <= sy.
Proof.
  intros Hmono Hxy Hsx Hsy.
  pose proof (sigmoid_range _ _ Hmono Hsx) as Hrx.
  pose proof (sigmoid_range _ _ Hmono Hsy) as Hry.
  destruct (Rlt_dec x (- IZR MAX_SIGMOID)) as [Hlo|Hlo].
  { rewrite sigmoid_below in Hsx by done. injection Hsx as <-. lra. }
  destruct (Rlt_dec (IZR MAX_SIGMOID) y) as [Hhi|Hhi].
  { rewrite sigmoid_above in Hsy by done. injection Hsy as <-. lra. }
  destruct (sigmoid_inside x ltac:(lra)) as (Hix & Hex & _).
  destruct (sigmoid_inside y ltac:(lra)) as (Hiy & Hey & _).
  rewrite Hex in Hsx. rewrite Hey in Hsy.
  destruct Hmono as [Hmono _]. eapply Hmono; [|exact Hsx|exact Hsy].
  apply Z2Nat.inj_le; [lia|lia|]. by apply Int_part_le, gridPos_le.
Qed.

Lemma sigmoid_zero :
  sigmoid MAX_SIGMOID SIGMOID_TABLE_SIZE t_sigmoid_ 0
  = t_sigmoid_ !! Z.to_nat (SIGMOID_TABLE_SIZE / 2).
Proof.
  destruct (sigmoid_inside 0 ltac:(lra)) as (_ & -> & _).
  do 2 f_equal. rewrite <- Int_part_half. f_equal.
  unfold gridPos. field. lra.
Qed.

End Sigmoid.

(** *** The logistic table *)

Lemma logistic_range (x : R) : 0 <= logistic x <= 1.
Proof.
  unfold logistic. pose proof (exp_pos (- x)) as He. split.
  - apply Rlt_le, Rdiv_lt_0_compat; lra.
  - unfold Rdiv. rewrite Rmult_1_l, <- Rinv_1.
    apply Rinv_le_contravar; lra.
Qed.

Lemma logistic_le (x y : R) : x <= y -> logistic x <= logistic y.
Proof.
  intros Hxy. unfold logistic.
  pose proof (exp_pos (- x)) as Hx. pose proof (exp_pos (- y)) as Hy.
  assert (Hexp : exp (- y) <= exp (- x)).
  { destruct Hxy as [Hlt| ->]; [|lra].
    left. apply exp_increasing. lra. }
  unfold Rdiv. rewrite !Rmult_1_l. apply Rinv_le_contravar; lra.
Qed.

Lemma logistic_0 : logistic 0 = 1 / 2.
Proof. unfold logistic. rewrite Ropp_0, exp_0. lra. Qed.

Lemma initSigmoid_lookup (MAX SIZE : Z) (i : nat) :
  (i < Z.to_nat (SIZE + 1))%nat ->
  initSigmoid MAX SIZE !! i
  = Some (logistic (IZR (Z.of_nat i * 2 * MAX) / IZR SIZE - IZR MAX)).
Proof.
  intros Hi. unfold initSigmoid.
  rewrite list_lookup_fmap, lookup_seq_lt by done. done.
Qed.

Lemma initSigmoid_ok (MAX SIZE : Z) :
  (0 < MAX)%Z -> (0 <= SIZE)%Z -> tableOk MAX SIZE (initSigmoid MAX SIZE).
Proof.
  intros HM HS. repeat split; try done.
  unfold initSigmoid. by rewrite length_fmap, length_seq.
Qed.

Lemma initSigmoid_monotone (MAX SIZE : Z) :
  (0 < MAX)%Z -> (0 <= SIZE)%Z -> tableMonotone (initSigmoid MAX SIZE).
Proof.
  intros HM HS. split.
  - intros i j x y Hij Hx Hy.
    pose proof (lookup_lt_Some _ _ _ Hx) as Hi.
    pose proof (lookup_lt_Some _ _ _ Hy) as Hj.
    unfold initSigmoid in Hi, Hj. rewrite length_fmap, length_seq in Hi, Hj.
    rewrite initSigmoid_lookup in Hx, Hy by done.
    injection Hx as <-. injection Hy as <-. apply logistic_le.
    apply Rplus_le_compat_r. unfold Rdiv. apply Rmult_le_compat_r.
    + destruct (Z.eq_dec SIZE 0%Z) as [->|Hne].
      * rewrite Rinv_0. lra.
      * apply Rlt_le, Rinv_0_lt_compat, IZR_lt. lia.
    + apply IZR_le. nia.
  - apply Forall_forall. intros x Hx.
    apply list_elem_of_fmap in Hx as (i & -> & _). apply logistic_range.
Qed.

(** C7, as amended. On a table with one entry per grid point, [sigmoid] is
    exactly 0 below [-MAX_SIGMOID] and exactly 1 above [MAX_SIGMOID]; inside
    the domain it is the single table entry at the integer part of the grid
    position, with no interpolation; it is non-decreasing when the table
    entries are non-decreasing and lie in [0, 1]; [sigmoid 0] is the table
    entry at [SIGMOID_TABLE_SIZE / 2], which is one half for the logistic
    table with an even, positive number of cells. *)
Theorem sigmoid_table_lookup (MAX_SIGMOID SIGMOID_TABLE_SIZE : Z)
  (t_sigmoid_ : list R) :
  tableOk MAX_SIGMOID SIGMOID_TABLE_SIZE t_sigmoid_ ->
  (forall x, x < - IZR MAX_SIGMOID ->
     sigmoid MAX_SIGMOID SIGMOID_TABLE_SIZE t_sigmoid_ x = Some 0)
  /\ (forall x, IZR MAX_SIGMOID < x ->
     sigmoid MAX_SIGMOID SIGMOID_TABLE_SIZE t_sigmoid_ x = Some 1)
  /\ (forall x, - IZR MAX_SIGMOID <= x <= IZR MAX_SIGMOID ->
     exists v,
       sigmoid MAX_SIGMOID SIGMOID_TABLE_SIZE t_sigmoid_ x = Some v
       /\ t_sigmoid_ !! Z.to_nat
            (Int_part (gridPos MAX_SIGMOID SIGMOID_TABLE_SIZE x)) = Some v)
  /\ (tableMonotone t_sigmoid_ ->
     forall x y, x <= y ->
     exists sx sy,
       sigmoid MAX_SIGMOID SIGMOID_TABLE_SIZE t_sigmoid_ x = Some sx
       /\ sigmoid MAX_SIGMOID SIGMOID_TABLE_SIZE t_sigmoid_ y = Some sy
       /\ sx <= sy)
  /\ sigmoid MAX_SIGMOID SIGMOID_TABLE_SIZE t_sigmoid_ 0
     = t_sigmoid_ !! Z.to_nat (SIGMOID_TABLE_SIZE / 2)
  /\ ((0 < SIGMOID_TABLE_SIZE)%Z -> Z.even SIGMOID_TABLE_SIZE = true ->
      sigmoid MAX_SIGMOID SIGMOID_TABLE_SIZE
        (initSigmoid MAX_SIGMOID SIGMOID_TABLE_SIZE) 0 = Some (1 / 2)).
Proof.
  intros Hok. split; [|split; [|split; [|split; [|split]]]].
  - intros x Hx. by eapply sigmoid_below.
  - intros x Hx. by eapply sigmoid_above.
  - intros x Hx.
    destruct (sigmoid_inside _ _ _ Hok x Hx) as (_ & Heq & [v Hv]).
    exists v. by rewrite Heq.
  - intros Hmono x y Hxy.
    destruct (sigmoid_total _ _ _ Hok x) as [sx Hsx].
    destruct (sigmoid_total _ _ _ Hok y) as [sy Hsy].
    exists sx, sy. repeat split; try done.
    by eapply sigmoid_monotone.
  - by apply sigmoid_zero.
  - intros Hpos Heven. destruct Hok as (HM & HS & _).
    rewrite (sigmoid_zero _ _ _ (initSigmoid_ok _ _ HM HS)).
    apply Z.even_spec in Heven as [q ->].
    assert (Hq : ((2 * q) / 2 = q)%Z)
      by (symmetry; apply Z.div_unique_exact; lia).
    rewrite Hq, initSigmoid_lookup by lia.
    rewrite Z2Nat.id by lia. rewrite <- logistic_0. do 2 f_equal.
    replace (q * 2 * MAX_SIGMOID)%Z with ((2 * q) * MAX_SIGMOID)%Z by lia.
    rewrite mult_IZR. field. apply not_0_IZR. lia.
Qed.

(** ** The binary-logistic step *)

Lemma fold_left_Rplus (l : list R) (a : R) :
  fold_left Rplus l a = a + Rsum l.
Proof.
  revert a. induction l as [|x l IH]; intros a; cbn.
  - lra.
  - rewrite IH. unfold Rsum. cbn. lra.
Qed.

Lemma dot_comm (x y : Vector) : dot x y = dot y x.
Proof.
  unfold dot. f_equal. revert y.
  induction x as [|a x IH]; intros [|b y]; cbn; try done.
  f_equal; [lra|apply IH].
Qed.

Lemma dotRow_Some (A : Matrix) (vec : Vector) (i : Z) (r : Vector) :
  Matrix.row A i = Some r -> length r = length vec ->
  dotRow A vec i = Some (dot vec r).
Proof.
  intros Hr Hlen. unfold dotRow. rewrite Hr. cbn.
  rewrite decide_True by done. f_equal.
  rewrite fold_left_Rplus, dot_comm. unfold dot. lra.
Qed.

Lemma addRow_Some (v : Vector) (A : Matrix) (i : Z) (a : R) (r : Vector) :
  Matrix.row A i = Some r -> length r = length v ->
  addRow v A i a = Some (axpy a r v).
Proof.
  intros Hr Hlen. unfold addRow. rewrite Hr. cbn.
  by rewrite decide_True.
Qed.

Section BinaryLogistic.

Context (MAX_SIGMOID SIGMOID_TABLE_SIZE : Z) (t_sigmoid_ : list R)
  (log : R -> R).

Lemma binaryLogistic_run (target : Z) (label : bool) (lr : R)
  (s : LossStore) (row : Vector) (score : R) :
  Matrix.row (wo_ s) target = Some row ->
  length row = length (hidden (state s)) ->
  length row = length (grad (state s)) ->
  sigmoid MAX_SIGMOID SIGMOID_TABLE_SIZE t_sigmoid_
    (dot (hidden (state s)) row) = Some score ->
  binaryLogistic MAX_SIGMOID SIGMOID_TABLE_SIZE t_sigmoid_ log
    target label lr s
  = (afterStep target (lr * ((if label then 1 else 0) - score)) row s,
     Done (if label then - log score else - log (1 - score))).
Proof.
  intros Hrow Hh Hg Hsig. unfold binaryLogistic.
  rewrite run_bind. cbn [gets].
  rewrite run_bind, (dotRow_Some _ _ _ _ Hrow Hh). cbn [check].
  unfold mret at 1, M_ret at 1.
  rewrite run_bind, Hsig. cbn [check]. unfold mret at 1, M_ret at 1.
  rewrite run_bind, (addRow_Some _ _ _ _ _ Hrow Hg). cbn [check].
  unfold mret at 1, M_ret at 1. rewrite run_modify.
  rewrite run_bind, (addVectorToRow_Some _ _ _ _ _ Hrow Hh). cbn [check].
  unfold mret at 1, M_ret at 1. rewrite run_modify.
  unfold afterStep. by destruct label.
Qed.

End BinaryLogistic.

(** ** Hierarchical softmax *)

Section HierarchicalSoftmax.

Context (MAX_SIGMOID SIGMOID_TABLE_SIZE : Z) (t_sigmoid_ : list R)
  (log : R -> R).

Local Abbreviation bl := (binaryLogistic MAX_SIGMOID SIGMOID_TABLE_SIZE
                        t_sigmoid_ log).
Local Abbreviation run_steps := (steps MAX_SIGMOID SIGMOID_TABLE_SIZE
                               t_sigmoid_ log).

Lemma at_of_nat {A} (l : list A) (k : nat) : at_ l (Z.of_nat k) = l !! k.
Proof. unfold at_. rewrite decide_True by lia. by rewrite Nat2Z.id. Qed.

Lemma hs_loop (path : list Z) (code : list bool) (lr : R) :
  (length path <= length code)%nat ->
  forall (n k : nat) (acc : R) (s : LossStore),
    (k + n = length path)%nat ->
    foldlM (fun loss i =>
        node ← check (at_ path i);
        bit ← check (at_ code i);
        l ← bl node bit lr; mret (loss + l))
      acc (seqZ (Z.of_nat k) (Z.of_nat n)) s
    = (xs ← run_steps (zip (drop k path) (drop k code)) lr;
       mret (acc + Rsum xs)) s.
Proof.
  intros Hlen. induction n as [|n IH]; intros k acc s Hk.
  - rewrite seqZ_nil, drop_ge by lia. cbv [zip zip_with steps foldlM].
    rewrite run_bind. unfold mret, M_ret. do 2 f_equal.
    unfold Rsum; cbn; lra.
  - rewrite seqZ_cons by lia.
    replace (Z.pred (Z.of_nat (S n))) with (Z.of_nat n) by lia.
    replace (Z.succ (Z.of_nat k)) with (Z.of_nat (S k)) by lia.
    destruct (lookup_lt_is_Some_2 path k ltac:(lia)) as [node Hnode].
    destruct (lookup_lt_is_Some_2 code k ltac:(lia)) as [bit Hbit].
    rewrite (drop_S _ _ _ Hnode), (drop_S _ _ _ Hbit).
    cbn [foldlM zip zip_with steps].
    rewrite !at_of_nat, Hnode, Hbit. mrun. rewrite !run_bind.
    destruct (bl node bit lr s) as [s1 [x|e]]; [|done].
    mrun. rewrite (IH (S k) (acc + x) s1) by lia.
    rewrite !run_bind.
    destruct (run_steps _ lr s1) as [s2 [xs|e]]; [|done].
    mrun. unfold mret, M_ret. do 2 f_equal. unfold Rsum; cbn; lra.
Qed.

End HierarchicalSoftmax.

(** ** Binary-logistic steps on a well-formed store *)

Section Steps.

Context (MAX_SIGMOID SIGMOID_TABLE_SIZE : Z) (t_sigmoid_ : list R)
  (log : R -> R).
Hypothesis table_ok : tableOk MAX_SIGMOID SIGMOID_TABLE_SIZE t_sigmoid_.

Local Abbreviation bl := (binaryLogistic MAX_SIGMOID SIGMOID_TABLE_SIZE
                            t_sigmoid_ log).
Local Abbreviation run_steps := (steps MAX_SIGMOID SIGMOID_TABLE_SIZE
                                   t_sigmoid_ log).

(** The step neither reads nor writes the cursor of the negative table. *)
Lemma binaryLogistic_negpos (target : Z) (label : bool) (lr : R) (p : nat)
  (s : LossStore) :
  bl target label lr (setNegpos p s)
  = (setNegpos p (bl target label lr s).1, (bl target label lr s).2).
Proof.
  unfold binaryLogistic. mrun. cbn [setNegpos wo_ state].
  destruct (dotRow _ _ _) as [d|]; [|done]. mrun.
  destruct (sigmoid _ _ _ _) as [score|]; [|done]. mrun.
  destruct (addRow _ _ _ _) as [g|]; [|done]. mrun.
  destruct (addVectorToRow _ _ _ _) as [A|]; [|done]. mrun.
  by destruct label.
Qed.

Lemma steps_negpos (l : list (Z * bool)) (lr : R) (p : nat) (s : LossStore) :
  run_steps l lr (setNegpos p s)
  = (setNegpos p (run_steps l lr s).1, (run_steps l lr s).2).
Proof.
  revert s. induction l as [|[t b] l IH]; intros s; [done|].
  cbn [steps]. rewrite !run_bind, binaryLogistic_negpos.
  destruct (bl t b lr s) as [s1 [x|e]]; [|done]. cbn [fst snd].
  rewrite !run_bind, IH.
  by destruct (run_steps l lr s1) as [s2 [xs|e]].
Qed.

Lemma lossOk_afterStep (dim : nat) (ids : list Z) (s : LossStore)
  (target : Z) (alpha : R) (row : Vector) :
  lossOk dim ids s -> Matrix.row (wo_ s) target = Some row ->
  length row = dim ->
  lossOk dim ids (afterStep target alpha row s)
  /\ negpos (afterStep target alpha row s) = negpos s.
Proof.
  intros (Hh & Hg & Hrows) Hrow Hlen.
  destruct (row_lookup _ _ _ Hrow) as [H0 Hl].
  split; [|done]. unfold lossOk, afterStep, axpy. cbn. repeat split.
  - done.
  - rewrite length_zip_with. lia.
  - apply rowsOk_insert; try done.
    + by eapply lookup_lt_Some.
    + rewrite length_zip_with. lia.
Qed.

(** On a well-formed store a step on a known row succeeds. *)
Lemma binaryLogistic_ok (dim : nat) (ids : list Z) (s : LossStore)
  (target : Z) (label : bool) (lr : R) :
  lossOk dim ids s -> target ∈ ids ->
  exists (row : Vector) (score : R),
    Matrix.row (wo_ s) target = Some row
    /\ sigmoid MAX_SIGMOID SIGMOID_TABLE_SIZE t_sigmoid_
         (dot (hidden (state s)) row) = Some score
    /\ bl target label lr s
       = (afterStep target (lr * ((if label then 1 else 0) - score)) row s,
          Done (if label then - log score else - log (1 - score)))
    /\ lossOk dim ids
         (afterStep target (lr * ((if label then 1 else 0) - score)) row s).
Proof.
  intros Hok Hin. pose proof Hok as (Hh & Hg & Hrows).
  destruct (proj1 (Forall_forall _ _) Hrows target Hin) as (row & Hrow & Hlen).
  destruct (sigmoid_total _ _ _ table_ok (dot (hidden (state s)) row))
    as [score Hscore].
  exists row, score. split; [done|]. split; [done|]. split.
  - apply binaryLogistic_run; try done; congruence.
  - by apply lossOk_afterStep.
Qed.

Lemma steps_ok (dim : nat) (ids : list Z) (l : list (Z * bool)) (lr : R)
  (s : LossStore) :
  lossOk dim ids s -> Forall (fun tb => tb.1 ∈ ids) l ->
  exists (s' : LossStore) (xs : list R),
    run_steps l lr s = (s', Done xs)
    /\ length xs = length l
    /\ lossOk dim ids s' /\ negpos s' = negpos s.
Proof.
  revert s. induction l as [|[t b] l IH]; intros s Hok Hin.
  - exists s, []. by cbn.
  - apply Forall_cons in Hin as [Ht Hin]. cbn in Ht.
    destruct (binaryLogistic_ok dim ids s t b lr Hok Ht)
      as (row & score & Hrow & _ & Hrun & Hok1).
    destruct (IH _ Hok1 Hin) as (s' & xs & Hsteps & Hlen & Hok' & Hnp).
    eexists s', (_ :: xs). cbn [steps].
    rewrite run_bind, Hrun. mrun. rewrite run_bind, Hsteps. mrun.
    split; [done|]. split; [cbn; by rewrite Hlen|]. split; [done|].
    by rewrite Hnp.
Qed.

End Steps.

(** ** Negative sampling *)

Section Negatives.

Context (negatives : list Z) (target : Z).

Lemma drawNegative_ok (fuel d : nat) (s : LossStore) (x : Z) :
  (negpos s < length negatives)%nat -> (d < fuel)%nat ->
  negatives !! ((negpos s + d) mod length negatives)%nat = Some x ->
  x <> target ->
  exists (y : Z) (p : nat),
    drawNegative negatives fuel target s = (setNegpos p s, Done y)
    /\ y <> target /\ y ∈ negatives /\ (p < length negatives)%nat.
Proof.
  revert d s. induction fuel as [|fuel IH]; intros d s Hp Hd Hx Hne; [lia|].
  destruct (lookup_lt_is_Some_2 negatives (negpos s) Hp) as [y Hy].
  cbn [drawNegative]. mrun. rewrite Hy. mrun.
  assert (Hp' : ((negpos s + 1) mod length negatives < length negatives)%nat)
    by (apply Nat.mod_upper_bound; lia).
  destruct (decide (target = y)) as [<-|Hty].
  - destruct d as [|d].
    { rewrite Nat.add_0_r, Nat.mod_small in Hx by done. congruence. }
    destruct (IH d (setNegpos ((negpos s + 1) mod length negatives) s) Hp')
      as (z & p & Hrun & Hz); [lia| |done|].
    { cbn [negpos setNegpos]. rewrite Nat.Div0.add_mod_idemp_l.
      by replace (negpos s + 1 + d)%nat with (negpos s + S d)%nat by lia. }
    exists z, p. by rewrite Hrun.
  - exists y, ((negpos s + 1) mod length negatives)%nat.
    split; [done|]. split; [done|]. split; [|done].
    by eapply list_elem_of_lookup_2.
Qed.

(** While the table holds an id other than [target] and the cursor is
    inside it, a draw returns such an id and only moves the cursor. *)
Lemma getNegative_ok (s : LossStore) :
  (negpos s < length negatives)%nat ->
  (exists x, x ∈ negatives /\ x <> target) ->
  exists (y : Z) (p : nat),
    getNegative negatives target s = (setNegpos p s, Done y)
    /\ y <> target /\ y ∈ negatives /\ (p < length negatives)%nat.
Proof.
  intros Hp (x & Hin & Hne).
  apply list_elem_of_lookup in Hin as [i Hi].
  pose proof (lookup_lt_Some _ _ _ Hi) as Hlt.
  set (n := length negatives) in *.
  apply (drawNegative_ok (S n) ((i + n - negpos s) mod n) s x); try done.
  - pose proof (Nat.mod_upper_bound (i + n - negpos s) n). lia.
  - fold n. rewrite Nat.Div0.add_mod_idemp_r.
    replace (negpos s + (i + n - negpos s))%nat with (i + 1 * n)%nat by lia.
    by rewrite Nat.Div0.mod_add, Nat.mod_small.
Qed.

End Negatives.

Section NegativeSampling.

Context (MAX_SIGMOID SIGMOID_TABLE_SIZE : Z) (t_sigmoid_ : list R)
  (log : R -> R) (negatives : list Z).
Hypothesis table_ok : tableOk MAX_SIGMOID SIGMOID_TABLE_SIZE t_sigmoid_.

Local Abbreviation bl := (binaryLogistic MAX_SIGMOID SIGMOID_TABLE_SIZE
                            t_sigmoid_ log).
Local Abbreviation run_steps := (steps MAX_SIGMOID SIGMOID_TABLE_SIZE
                                   t_sigmoid_ log).

Lemma setNegpos_same (s : LossStore) : setNegpos (negpos s) s = s.
Proof. by destruct s. Qed.

Lemma steps_keep_negpos (l : list (Z * bool)) (lr : R) (s : LossStore) :
  negpos (run_steps l lr s).1 = negpos s.
Proof.
  pose proof (steps_negpos MAX_SIGMOID SIGMOID_TABLE_SIZE t_sigmoid_ log
                l lr (negpos s) s) as H.
  rewrite setNegpos_same in H. by rewrite H at 1.
Qed.

Lemma ns_loop (target : Z) (lr : R) (dim : nat) (ns : list Z) :
  Forall (fun n => n <> 0%Z) ns ->
  (exists x, x ∈ negatives /\ x <> target) ->
  forall (acc : R) (s : LossStore),
    lossOk dim (target :: negatives) s ->
    (negpos s < length negatives)%nat ->
    exists (negs : list Z) (xs : list R) (s' : LossStore),
      foldlM (fun loss n =>
          if decide (n = 0)%Z
          then l ← bl target true lr; mret (loss + l)
          else t ← getNegative negatives target;
               l ← bl t false lr; mret (loss + l))
        acc ns s
      = (s', Done (acc + Rsum xs))
      /\ length negs = length ns
      /\ Forall (fun n => n <> target /\ n ∈ negatives) negs
      /\ run_steps ((fun n => (n, false)) <$> negs) lr s
         = (setNegpos (negpos s) s', Done xs).
Proof.
  intros Hns Hex. induction Hns as [|n ns Hn _ IH]; intros acc s Hok Hp.
  - exists [], [], s. cbn. rewrite setNegpos_same.
    split; [|done]. unfold mret, M_ret. do 2 f_equal. unfold Rsum; cbn; lra.
  - destruct (getNegative_ok negatives target s Hp Hex)
      as (y & p & Hdraw & Hy & Hin & Hp1).
    destruct (binaryLogistic_ok _ _ _ log table_ok dim _ _ y false lr Hok)
      as (row & score & Hrow & _ & Hrun & Hok2).
    { by apply list_elem_of_further. }
    set (s0 := afterStep y _ row s) in *.
    set (x := - log (1 - score)) in *.
    destruct (IH (acc + x) (setNegpos p s0)) as
      (negs & xs & s' & Hloop & Hlen & Hall & Hsteps); [done|done|].
    exists (y :: negs), (x :: xs), s'.
    split; [|split; [|split]].
    + cbn [foldlM]. rewrite decide_False by done. mrun.
      rewrite run_bind, Hdraw. mrun.
      rewrite run_bind, binaryLogistic_negpos, Hrun. cbn [fst snd]. mrun.
      rewrite Hloop. do 2 f_equal. unfold Rsum; cbn; lra.
    + cbn. by rewrite Hlen.
    + by apply Forall_cons.
    + rewrite fmap_cons. cbn [steps]. rewrite run_bind, Hrun.
      rewrite steps_negpos in Hsteps. cbn [negpos setNegpos] in Hsteps.
      pose proof (steps_keep_negpos ((fun n => (n, false)) <$> negs) lr s0)
        as Hkeep.
      rewrite run_bind.
      destruct (run_steps _ lr s0) as [s2 r2]. cbn [fst snd] in *.
      pose proof (f_equal fst Hsteps) as Hs2.
      pose proof (f_equal snd Hsteps) as Hr2. cbn [fst snd] in Hs2, Hr2.
      rewrite Hr2. mrun. unfold mret, M_ret. f_equal.
      rewrite <- (setNegpos_same s2), Hkeep.
      change (setNegpos (negpos s0) s2)
        with (setNegpos (negpos s) (setNegpos p s2)).
      by rewrite Hs2.
Qed.

(** C4. On a well-formed store, with a non-negative number [neg] of
    negatives, a cursor inside the table and a table that holds an id other
    than the target, [negativeSampling] returns; the call amounts to
    zero-filling the gradient and then running one positive step on the
    target followed by [neg] negative steps, each on an id of the table
    that differs from the target; the value returned is the sum of the
    losses of these [1 + neg] steps. *)
Theorem negativeSampling_steps (neg : Z) (target : Z) (lr : R) (dim : nat)
  (s : LossStore) :
  (0 <= neg)%Z ->
  (negpos s < length negatives)%nat ->
  (exists x, x ∈ negatives /\ x <> target) ->
  lossOk dim (target :: negatives) s ->
  exists (negs : list Z) (xs : list R) (s' : LossStore),
    negativeSampling MAX_SIGMOID SIGMOID_TABLE_SIZE t_sigmoid_ log neg
      negatives target lr s = (s', Done (Rsum xs))
    /\ length negs = Z.to_nat neg
    /\ length xs = S (Z.to_nat neg)
    /\ Forall (fun n => n <> target /\ n ∈ negatives) negs
    /\ run_steps ((target, true) :: ((fun n => (n, false)) <$> negs)) lr
         (setGrad (Vector.zero (grad (state s))) s)
       = (setNegpos (negpos s) s', Done xs).
Proof.
  intros Hneg Hp Hex Hok. unfold negativeSampling. rewrite run_modify.
  set (s0 := setGrad _ s).
  assert (Hok0 : lossOk dim (target :: negatives) s0).
  { destruct Hok as (Hh & Hg & Hrows). split; [done|]. split; [|done].
    unfold s0, Vector.zero. cbn. by rewrite length_fmap. }
  rewrite seqZ_cons by lia. cbn [foldlM]. rewrite decide_True by done.
  destruct (binaryLogistic_ok _ _ _ log table_ok dim _ _ target true lr Hok0)
    as (row & score & Hrow & _ & Hrun & Hok1).
  { by apply list_elem_of_here. }
  set (s1 := afterStep target _ row s0) in *.
  set (x0 := - log score) in *.
  destruct (ns_loop target lr dim (seqZ (Z.succ 0) (Z.pred (neg + 1)))
              ltac:(apply Forall_forall; intros n Hn;
                    apply list_elem_of_lookup in Hn as [i Hi];
                    apply lookup_seqZ in Hi; lia)
              Hex (0 + x0) s1 Hok1 Hp)
    as (negs & xs & s' & Hloop & Hlen & Hall & Hsteps).
  exists negs, (x0 :: xs), s'.
  split; [|split; [|split; [|split]]].
  - mrun. rewrite run_bind, Hrun. mrun. rewrite Hloop.
    do 2 f_equal. unfold Rsum; cbn; lra.
  - rewrite Hlen, length_seqZ. lia.
  - destruct (steps_ok _ _ _ log table_ok dim (target :: negatives)
                ((fun n => (n, false)) <$> negs) lr s1 Hok1)
      as (s2 & xs2 & Hrun2 & Hlen2 & _).
    { apply Forall_fmap, Forall_forall. intros n Hn. cbn.
      apply list_elem_of_further.
      by destruct (proj1 (Forall_forall _ _) Hall n Hn). }
    rewrite Hrun2 in Hsteps. injection Hsteps as _ <-.
    cbn. rewrite Hlen2, length_fmap, Hlen, length_seqZ. lia.
  - done.
  - cbn [steps]. rewrite run_bind, Hrun. mrun. rewrite run_bind, Hsteps.
    by mrun.
Qed.

End NegativeSampling.

(** ** Full softmax *)

Lemma at_app_length {A} (pre rest : list A) (x : A) :
  at_ (pre ++ x :: rest) (Z.of_nat (length pre)) = Some x.
Proof. rewrite at_of_nat. by apply list_lookup_middle. Qed.

Lemma insert_app_length {A} (pre rest : list A) (x y : A) :
  <[Z.to_nat (Z.of_nat (length pre)) := y]> (pre ++ x :: rest)
  = (pre ++ [y]) ++ rest.
Proof.
  rewrite Nat2Z.id, insert_app_r_alt by lia.
  rewrite Nat.sub_diag. cbn. by rewrite <- app_assoc.
Qed.

Lemma seqZ_step (k n : nat) :
  seqZ (Z.of_nat k) (Z.of_nat (S n))
  = Z.of_nat k :: seqZ (Z.of_nat (S k)) (Z.of_nat n).
Proof.
  rewrite seqZ_cons by lia. do 2 f_equal; lia.
Qed.

(** The loop that takes the running maximum over the entries. *)
Lemma max_loop (rest pre : list R) (m : R) :
  foldlM (fun max i => x ← at_ (pre ++ rest) i; Some (Rmax x max))
    m (seqZ (Z.of_nat (length pre)) (Z.of_nat (length rest)))
  = Some (foldl (fun max x => Rmax x max) m rest).
Proof.
  revert pre m. induction rest as [|x rest IH]; intros pre m; [done|].
  cbn [length]. rewrite seqZ_step. cbn [foldlM foldl].
  rewrite at_app_length. cbn [mbind option_bind].
  replace (pre ++ x :: rest) with ((pre ++ [x]) ++ rest)
    by (by rewrite <- app_assoc).
  replace (S (length pre)) with (length (pre ++ [x]))
    by (rewrite length_app; cbn; lia).
  apply IH.
Qed.

(** The loop that exponentiates in place and accumulates the normaliser. *)
Lemma exp_loop (mx : R) (rest pre : list R) (z : R) :
  foldlM (fun '(output, z) i =>
      x ← at_ output i;
      let e := exp (x - mx) in
      Some (<[Z.to_nat i := e]> output, z + e))
    (pre ++ rest, z)
    (seqZ (Z.of_nat (length pre)) (Z.of_nat (length rest)))
  = Some (pre ++ ((fun x => exp (x - mx)) <$> rest),
          z + Rsum ((fun x => exp (x - mx)) <$> rest)).
Proof.
  revert pre z. induction rest as [|x rest IH]; intros pre z.
  - rewrite seqZ_nil by (cbn; lia). cbn [foldlM]. unfold mret, option_ret.
    rewrite fmap_nil. do 2 f_equal. unfold Rsum; cbn; lra.
  - cbn [length]. rewrite seqZ_step. cbn [foldlM].
    rewrite at_app_length. cbn [mbind option_bind].
    rewrite insert_app_length.
    replace (S (length pre)) with (length (pre ++ [exp (x - mx)]))
      by (rewrite length_app; cbn; lia).
    rewrite IH. rewrite fmap_cons, <- app_assoc. cbn [app].
    do 2 f_equal. unfold Rsum; cbn; lra.
Qed.

(** The loop that divides in place by the normaliser. *)
Lemma div_loop (z : R) (rest pre : list R) :
  foldlM (fun output i =>
      x ← at_ output i; Some (<[Z.to_nat i := x / z]> output))
    (pre ++ rest)
    (seqZ (Z.of_nat (length pre)) (Z.of_nat (length rest)))
  = Some (pre ++ ((fun x => x / z) <$> rest)).
Proof.
  revert pre. induction rest as [|x rest IH]; intros pre; [done|].
  cbn [length]. rewrite seqZ_step. cbn [foldlM].
  rewrite at_app_length. cbn [mbind option_bind].
  rewrite insert_app_length.
  replace (S (length pre)) with (length (pre ++ [x / z]))
    by (rewrite length_app; cbn; lia).
  rewrite IH. by rewrite fmap_cons, <- app_assoc.
Qed.

Lemma max_loop0 (sc : list R) (m : R) :
  foldlM (fun max i => x ← at_ sc i; Some (Rmax x max))
    m (seqZ 0 (Z.of_nat (length sc)))
  = Some (foldl (fun max x => Rmax x max) m sc).
Proof. exact (max_loop sc [] m). Qed.

Lemma exp_loop0 (mx : R) (sc : list R) :
  foldlM (fun '(output, z) i =>
      x ← at_ output i;
      Some (<[Z.to_nat i := exp (x - mx)]> output, z + exp (x - mx)))
    (sc, 0) (seqZ 0 (Z.of_nat (length sc)))
  = Some ((fun x => exp (x - mx)) <$> sc,
          0 + Rsum ((fun x => exp (x - mx)) <$> sc)).
Proof. exact (exp_loop mx sc [] 0). Qed.

Lemma div_loop0 (z : R) (sc : list R) :
  foldlM (fun output i =>
      x ← at_ output i; Some (<[Z.to_nat i := x / z]> output))
    sc (seqZ 0 (Z.of_nat (length sc)))
  = Some ((fun x => x / z) <$> sc).
Proof. exact (div_loop z sc []). Qed.

Lemma max_fold_spec (l : list R) (m : R) :
  let mx := foldl (fun max x => Rmax x max) m l in
  (mx = m \/ mx ∈ l) /\ m <= mx /\ (forall x, x ∈ l -> x <= mx).
Proof.
  revert m. induction l as [|y l IH]; intros m; cbn.
  - split; [by left|]. split; [lra|]. intros x Hx. by apply elem_of_nil in Hx.
  - destruct (IH (Rmax y m)) as (Hin & Hle & Hall).
    pose proof (Rmax_l y m). pose proof (Rmax_r y m).
    split; [|split].
    + destruct Hin as [Heq|Hin]; [|right; by apply list_elem_of_further].
      rewrite Heq. unfold Rmax. destruct (Rle_dec y m); [by left|].
      right. apply list_elem_of_here.
    + lra.
    + intros x Hx. apply elem_of_cons in Hx as [->|Hx]; [lra|by apply Hall].
Qed.

Lemma Rsum_nonneg (l : list R) : Forall (fun x => 0 <= x) l -> 0 <= Rsum l.
Proof.
  induction 1 as [|x l Hx _ IH]; unfold Rsum in *; cbn; lra.
Qed.

Lemma Rsum_elem_le (l : list R) (x : R) :
  Forall (fun y => 0 <= y) l -> x ∈ l -> x <= Rsum l.
Proof.
  intros Hall Hin. induction Hall as [|y l Hy Hall IH].
  - by apply elem_of_nil in Hin.
  - pose proof (Rsum_nonneg l Hall).
    unfold Rsum in *. cbn.
    apply elem_of_cons in Hin as [->|Hin]; [lra|].
    specialize (IH Hin). lra.
Qed.

Lemma Rsum_div (l : list R) (z : R) :
  Rsum ((fun x => x / z) <$> l) = Rsum l / z.
Proof.
  induction l as [|x l IH]; unfold Rsum in *; cbn; [lra|].
  rewrite IH. lra.
Qed.

Lemma mulMatrix_Some (out : Vector) (A : Matrix) (vec : Vector) :
  length A = length out ->
  Forall (fun r => length r = length vec) A ->
  mulMatrix out A vec = Some (scores A vec).
Proof.
  intros Hlen Hrows. unfold mulMatrix. rewrite decide_True by done.
  apply mapM_Some. unfold scores. apply Forall2_fmap_r.
  apply Forall_Forall2_diag. eapply Forall_impl; [exact Hrows|].
  intros r Hr. cbn in Hr. rewrite decide_True by done.
  f_equal. rewrite fold_left_Rplus. unfold dot. cbn beta. lra.
Qed.

(** The loops of [computeOutputSoftmax] in exact real arithmetic.  When
    the active output matrix has at least one row, as many rows as [output]
    has entries and as [osz_] says, and rows as long as [hidden], the value
    computed is the vector whose entry [i] is
    [exp (score_i - max) / sum_k exp (score_k - max)]; over the reals its
    entries lie in [0, 1] and sum to exactly 1.  This is a statement about
    the algorithm only: it says nothing about the float32 run, where [exp]
    underflows and the sum is rounded (see [softmaxAround_shift] below). *)
Theorem computeOutputSoftmax_softmax (osz_ : Z) (quant_ qout : bool)
  (qwo_ wo : Matrix) (hidden output : Vector) :
  let A := if quant_ && qout then qwo_ else wo in
  A <> [] ->
  length A = length output ->
  osz_ = Z.of_nat (length A) ->
  Forall (fun r => length r = length hidden) A ->
  exists (out : Vector) (mx : R),
    computeOutputSoftmax osz_ quant_ qout qwo_ wo hidden output = Some out
    /\ mx ∈ scores A hidden
    /\ (forall x, x ∈ scores A hidden -> x <= mx)
    /\ out = softmaxAround mx (scores A hidden)
    /\ Forall (fun p => 0 <= p <= 1) out
    /\ Rsum out = 1.
Proof.
  intros A HA Hlen Hosz Hrows.
  set (sc := scores A hidden).
  assert (Hsc : length sc = length A) by (unfold sc, scores; by rewrite length_fmap).
  destruct sc as [|s0 sc'] eqn:Esc.
  { destruct A; [done|discriminate]. }
  rewrite <- Esc in *.
  set (mx := foldl (fun max x => Rmax x max) s0 sc).
  set (e := fun x => exp (x - mx)).
  set (z := Rsum (e <$> sc)).
  assert (Hmx : mx ∈ sc /\ forall x, x ∈ sc -> x <= mx).
  { destruct (max_fold_spec sc s0) as (Hin & _ & Hall). fold mx in Hin, Hall.
    split; [|done]. destruct Hin as [->|Hin]; [|done].
    rewrite Esc. apply list_elem_of_here. }
  assert (He : Forall (fun y => 0 <= y) (e <$> sc)).
  { apply Forall_fmap, Forall_forall. intros x _. cbn. unfold e.
    left. apply exp_pos. }
  assert (Hz : 0 < z).
  { unfold z. rewrite Esc, fmap_cons. rewrite Esc, fmap_cons in He.
    apply Forall_cons in He as [_ He]. apply Rsum_nonneg in He.
    unfold Rsum in *. cbn. pose proof (exp_pos (s0 - mx)).
    change (e s0) with (exp (s0 - mx)). lra. }
  exists ((fun x => x / z) <$> (e <$> sc)), mx.
  split; [|split; [|split; [|split; [|split]]]].
  - unfold computeOutputSoftmax.
    assert (Hmul : (if quant_ && qout then mulMatrix output qwo_ hidden
                    else mulMatrix output wo hidden) = Some sc).
    { unfold sc, A in *. destruct (quant_ && qout);
        by apply mulMatrix_Some. }
    rewrite Hmul. cbn [mbind option_bind].
    assert (H0 : at_ sc 0 = Some s0) by (by rewrite Esc).
    rewrite H0. cbn [mbind option_bind].
    rewrite Hosz, <- Hsc.
    rewrite (max_loop0 sc s0). cbn [mbind option_bind]. fold mx.
    rewrite (exp_loop0 mx sc). cbn [mbind option_bind fst snd].
    fold e. rewrite Rplus_0_l. fold z.
    replace (length sc) with (length (e <$> sc)) by (by rewrite length_fmap).
    apply (div_loop0 z (e <$> sc)).
  - apply Hmx.
  - apply Hmx.
  - unfold softmaxAround. fold e z. by rewrite <- list_fmap_compose.
  - apply Forall_fmap, Forall_forall. intros y Hy. cbn.
    pose proof (proj1 (Forall_forall _ _) He y Hy) as Hy0. cbn in Hy0.
    pose proof (Rsum_elem_le _ y He Hy) as Hyz. fold z in Hyz.
    split.
    + apply Rmult_le_pos; [done|]. apply Rlt_le, Rinv_0_lt_compat, Hz.
    + apply (Rmult_le_reg_r z); [done|]. unfold Rdiv.
      rewrite Rmult_assoc, Rinv_l by lra. lra.
  - rewrite Rsum_div. fold z. unfold Rdiv. apply Rinv_r. lra.
Qed.

Lemma Rsum_scale (f : R -> R) (c : R) (l : list R) :
  Rsum ((fun y => f y * c) <$> l) = Rsum (f <$> l) * c.
Proof.
  induction l as [|x l IH]; [unfold Rsum; cbn; lra|].
  rewrite !fmap_cons. unfold Rsum in *. cbn [foldr]. rewrite IH. lra.
Qed.

Lemma Rsum_exp_pos (m : R) (l : list R) :
  l <> [] -> 0 < Rsum ((fun y => exp (y - m)) <$> l).
Proof.
  destruct l as [|x l]; [done|]. intros _. rewrite fmap_cons.
  assert (He : Forall (fun y => 0 <= y) ((fun y => exp (y - m)) <$> l)).
  { apply Forall_fmap, Forall_forall. intros y _. cbn. left. apply exp_pos. }
  apply Rsum_nonneg in He. pose proof (exp_pos (x - m)).
  unfold Rsum in *. cbn [foldr]. lra.
Qed.

(** Over the reals the value subtracted before exponentiating cancels:
    normalising around any [mx'] gives the same vector as normalising
    around [mx].  Exact real arithmetic therefore cannot express what the
    subtraction of the maximum is for in the float32 code (keeping [exp]
    from overflowing), nor a tolerance on the rounded sum. *)
Lemma softmaxAround_shift (mx mx' : R) (sc : Vector) :
  softmaxAround mx sc = softmaxAround mx' sc.
Proof.
  unfold softmaxAround. apply list_fmap_ext. intros i x Hx.
  assert (Hne : sc <> []) by (intros ->; done).
  pose proof (Rsum_exp_pos mx' sc Hne) as Hz.
  pose proof (exp_pos (mx' - mx)) as Hc.
  assert (Hexp : forall y, exp (y - mx) = exp (y - mx') * exp (mx' - mx)).
  { intros y. rewrite <- exp_plus. f_equal. lra. }
  rewrite (list_fmap_ext (fun y => exp (y - mx))
             (fun y => exp (y - mx') * exp (mx' - mx)) sc)
    by (intros; apply Hexp).
  rewrite Rsum_scale, Hexp. field. lra.
Qed.

(** ** The loss evaluation inside [update] *)

Lemma zero_length (a b : Vector) :
  length a = length b -> Vector.zero a = Vector.zero b.
Proof.
  revert b. induction a as [|x a IH]; intros [|y b] Hlen; try done.
  cbn in Hlen. unfold Vector.zero in *. rewrite !fmap_cons.
  f_equal. apply IH. lia.
Qed.

Lemma zero_zero (a : Vector) : Vector.zero (Vector.zero a) = Vector.zero a.
Proof. apply zero_length. unfold Vector.zero. by rewrite length_fmap. Qed.

(** C2. On a table with one entry per grid point, the binary-logistic step
    on an output row [t] of the embedding dimension computes the score
    [s = sigmoid (dot hidden wo[t])], sets [alpha = lr * (label - s)], adds
    [alpha] times the row (as it was) to the gradient buffer and [alpha]
    times [hidden] to the row, and returns [- log s] for a true label and
    [- log (1 - s)] otherwise.  Inside [update] with a loss made of one such
    step, the output row is updated against the mean of the rows of the
    input matrix as they were when [update] was called, and the input
    matrix only changes afterwards, by the scatter of the gradient. *)
Theorem binaryLogistic_step (MAX_SIGMOID SIGMOID_TABLE_SIZE : Z)
  (t_sigmoid_ : list R) (log : R -> R) (target : Z) (label : bool) (lr : R) :
  tableOk MAX_SIGMOID SIGMOID_TABLE_SIZE t_sigmoid_ ->
  (forall (s : LossStore) (row : Vector),
     Matrix.row (wo_ s) target = Some row ->
     length row = length (hidden (state s)) ->
     length row = length (grad (state s)) ->
     exists score : R,
       sigmoid MAX_SIGMOID SIGMOID_TABLE_SIZE t_sigmoid_
         (dot (hidden (state s)) row) = Some score
       /\ binaryLogistic MAX_SIGMOID SIGMOID_TABLE_SIZE t_sigmoid_ log
            target label lr s
          = (setWo (<[Z.to_nat target :=
                        axpy (lr * ((if label then 1 else 0) - score))
                          (hidden (state s)) row]> (wo_ s))
               (setGrad (axpy (lr * ((if label then 1 else 0) - score))
                           row (grad (state s))) s),
             Done (if label then - log score else - log (1 - score))))
  /\ (forall (normalizeGradient : bool) (input targets : list Z)
        (targetIndex : Z) (s : Store) (row : Vector),
     let dim := length (hidden (state (inner s))) in
     let h := meanRows (wi_ s) input dim in
     input <> [] ->
     rowsOk (wi_ s) dim input ->
     Matrix.row (wo_ (inner s)) target = Some row ->
     length row = dim ->
     length (grad (state (inner s))) = dim ->
     exists (score : R) (s' : Store),
       sigmoid MAX_SIGMOID SIGMOID_TABLE_SIZE t_sigmoid_ (dot h row)
         = Some score
       /\ update normalizeGradient
            (fun _ _ lr' _ =>
               binaryLogistic MAX_SIGMOID SIGMOID_TABLE_SIZE t_sigmoid_ log
                 target label lr')
            input targets targetIndex lr s = (s', Done tt)
       /\ wo_ (inner s')
          = <[Z.to_nat target :=
                axpy (lr * ((if label then 1 else 0) - score)) h row]>
              (wo_ (inner s))
       /\ wi_ s' = scatterRows (wi_ s) (grad (state (inner s'))) input).
Proof.
  intros Hok. split.
  - intros s row Hrow Hh Hg.
    destruct (sigmoid_total _ _ _ Hok (dot (hidden (state s)) row))
      as [score Hscore].
    exists score. split; [done|].
    by rewrite (binaryLogistic_run _ _ _ log target label lr s row score).
  - intros nG input targets targetIndex s row dim h Hne Hin Hrow Hlen Hg.
    destruct (sigmoid_total _ _ _ Hok (dot h row)) as [score Hscore].
    set (alpha := lr * ((if label then 1 else 0) - score)).
    set (l := afterStep target alpha row (preLoss input s)).
    assert (Hdim : length h = dim).
    { unfold h, meanRows. by rewrite length_fmap, length_seq. }
    assert (Hrun :
      binaryLogistic MAX_SIGMOID SIGMOID_TABLE_SIZE t_sigmoid_ log
        target label lr (preLoss input s)
      = (l, Done (if label then - log score else - log (1 - score)))).
    { apply binaryLogistic_run; try done.
      - unfold preLoss. cbn. fold dim h. congruence.
      - unfold preLoss, Vector.zero. cbn. rewrite length_fmap. congruence. }
    exists score, (postUpdate nG input s l
                     (if label then - log score else - log (1 - score))).
    split; [done|]. split; [|split].
    + apply (update_run nG _ input targets targetIndex lr s Hne Hin l _ Hrun).
      unfold l, afterStep, axpy, preLoss, Vector.zero. cbn.
      rewrite length_zip_with, length_fmap. fold dim. lia.
    + done.
    + done.
Qed.

Lemma setGrad_zero_pre (input : list Z) (s : Store) (g0 : Vector) :
  length g0 = length (grad (state (inner s))) ->
  preLoss input (setInner (setGrad g0 (inner s)) s) = preLoss input s.
Proof.
  intros Hg. unfold preLoss. proj_simpl. by rewrite (zero_length g0 _ Hg).
Qed.

Lemma update_unfold (normalizeGradient : bool)
  (forward : list Z -> Z -> R -> bool -> M LossStore R)
  (input targets : list Z) (targetIndex : Z) (lr : R) (s : Store) :
  input <> [] ->
  rowsOk (wi_ s) (length (hidden (state (inner s)))) input ->
  update normalizeGradient forward input targets targetIndex lr s
  = (zoom inner setInner (forward targets targetIndex lr true) ≫= fun lossValue =>
     modify (fun s =>
       setInner (mkLossStore (wo_ (inner s)) (negpos (inner s))
                   (incrementNExamples lossValue (state (inner s)))) s);;
     (if normalizeGradient
      then modify (fun s =>
             setInner (setGrad (Vector.mul (grad (state (inner s)))
                                  (1 / INR (length input))) (inner s)) s)
      else mret tt);;
     forEach input (fun it =>
       s ← gets (fun s => s);
       A ← check (addVectorToRow (wi_ s) (grad (state (inner s))) it 1);
       modify (setWi A)))
    (mkStore (wi_ s) (preLoss input s)).
Proof.
  intros Hne Hok. unfold update.
  rewrite decide_False by (by destruct input).
  rewrite run_bind, (computeHidden_run' input s Hok).
  by rewrite run_modify.
Qed.

Lemma zero_replicate (v : Vector) : Vector.zero v = replicate (length v) 0.
Proof.
  unfold Vector.zero. induction v as [|x v IH]; [done|].
  rewrite fmap_cons. cbn [length replicate]. by rewrite IH.
Qed.

(** C9. For a non-empty input that names rows of the input matrix, and
    whatever the gradient buffer [g0] held on entry: [update] runs the
    loss evaluation on the store whose gradient buffer is zero-filled (and
    whose hidden vector is the mean of the input rows); when the loss
    evaluation fails, [update] fails with its error; when it returns with a
    gradient of the embedding dimension, [update] records the loss and
    scatters exactly the gradient the loss evaluation accumulated from
    zero (normalised if asked for); so the whole result is the same as for
    any other prior contents of the buffer.  The legacy [negativeSampling]
    zero-fills the buffer itself before its first step. *)
Theorem update_grad_fresh (normalizeGradient : bool)
  (forward : list Z -> Z -> R -> bool -> M LossStore R)
  (input targets : list Z) (targetIndex : Z) (lr : R) (s : Store)
  (g0 : Vector) :
  input <> [] ->
  rowsOk (wi_ s) (length (hidden (state (inner s)))) input ->
  length g0 = length (grad (state (inner s))) ->
  let s0 := setInner (setGrad g0 (inner s)) s in
  grad (state (preLoss input s0)) = replicate (length g0) 0
  /\ preLoss input s0 = preLoss input s
  /\ (forall (l : LossStore) (e : error),
       forward targets targetIndex lr true (preLoss input s0) = (l, Raise e) ->
       update normalizeGradient forward input targets targetIndex lr s0
       = (mkStore (wi_ s) l, Raise e))
  /\ (forall (l : LossStore) (loss : R),
       forward targets targetIndex lr true (preLoss input s0) = (l, Done loss) ->
       length (grad (state l)) = length (hidden (state (inner s))) ->
       update normalizeGradient forward input targets targetIndex lr s0
       = (mkStore
            (scatterRows (wi_ s) (scattered normalizeGradient input l) input)
            (setGrad (scattered normalizeGradient input l)
               (mkLossStore (wo_ l) (negpos l)
                  (incrementNExamples loss (state l)))),
          Done tt))
  /\ update normalizeGradient forward input targets targetIndex lr s0
     = update normalizeGradient forward input targets targetIndex lr s
  /\ (forall (MAX_SIGMOID SIGMOID_TABLE_SIZE : Z) (t_sigmoid_ : list R)
        (log : R -> R) (neg : Z) (negatives : list Z) (target : Z),
      negativeSampling MAX_SIGMOID SIGMOID_TABLE_SIZE t_sigmoid_ log
        neg negatives target lr (setGrad g0 (inner s))
      = negativeSampling MAX_SIGMOID SIGMOID_TABLE_SIZE t_sigmoid_ log
          neg negatives target lr (inner s)).
Proof.
  intros Hne Hok Hg s0.
  assert (Hok0 : rowsOk (wi_ s0) (length (hidden (state (inner s0)))) input)
    by done.
  assert (Hpre : preLoss input s0 = preLoss input s)
    by (by apply setGrad_zero_pre).
  split; [|split; [done|split; [|split; [|split]]]].
  - unfold preLoss. proj_simpl. apply zero_replicate.
  - intros l e Hfw.
    apply (update_forward_error normalizeGradient forward input targets
             targetIndex lr s0 Hne Hok0 l e Hfw).
  - intros l loss Hfw Hlen.
    apply (update_run normalizeGradient forward input targets targetIndex
             lr s0 Hne Hok0 l loss Hfw Hlen).
  - rewrite !update_unfold by done. by rewrite Hpre.
  - intros. unfold negativeSampling. rewrite !run_modify. proj_simpl.
    by rewrite (zero_length g0 _ Hg).
Qed.

(** C5. For a target whose stored path has a code bit for every node,
    [hierarchicalSoftmax] zero-fills the gradient and then performs exactly
    the binary-logistic steps of the path in stored order, the step at
    depth [i] on node [path[i]] with label [code[i]], and returns the sum of
    the losses of these steps (failing exactly where a step fails); on a
    well-formed store every step succeeds, so the call returns the sum of
    one loss per path node. *)
Theorem hierarchicalSoftmax_path (MAX_SIGMOID SIGMOID_TABLE_SIZE : Z)
  (t_sigmoid_ : list R) (log : R -> R) (codes : list (list bool))
  (paths : list (list Z)) (target : Z) (lr : R) (s : LossStore)
  (code : list bool) (path : list Z) :
  at_ codes target = Some code ->
  at_ paths target = Some path ->
  length path = length code ->
  hierarchicalSoftmax MAX_SIGMOID SIGMOID_TABLE_SIZE t_sigmoid_ log
    codes paths target lr s
  = (xs ← steps MAX_SIGMOID SIGMOID_TABLE_SIZE t_sigmoid_ log
            (zip path code) lr;
     mret (Rsum xs))
      (setGrad (Vector.zero (grad (state s))) s)
  /\ (forall dim : nat,
        tableOk MAX_SIGMOID SIGMOID_TABLE_SIZE t_sigmoid_ ->
        lossOk dim path s ->
        exists (s' : LossStore) (xs : list R),
          hierarchicalSoftmax MAX_SIGMOID SIGMOID_TABLE_SIZE t_sigmoid_ log
            codes paths target lr s = (s', Done (Rsum xs))
          /\ length xs = length path).
Proof.
  intros Hcode Hpath Hlen.
  assert (Heq :
    hierarchicalSoftmax MAX_SIGMOID SIGMOID_TABLE_SIZE t_sigmoid_ log
      codes paths target lr s
    = (xs ← steps MAX_SIGMOID SIGMOID_TABLE_SIZE t_sigmoid_ log
              (zip path code) lr;
       mret (Rsum xs))
        (setGrad (Vector.zero (grad (state s))) s)).
  { unfold hierarchicalSoftmax. rewrite Hcode, Hpath. mrun.
    rewrite (hs_loop _ _ _ log path code lr ltac:(lia) (length path) 0%nat)
      by lia.
    rewrite !drop_0, !run_bind.
    destruct (steps _ _ _ _ _ lr _) as [s2 [xs|e]]; [|done].
    unfold mret, M_ret. do 2 f_equal. lra. }
  split; [done|]. intros dim Hok Hloss. rewrite Heq.
  destruct (steps_ok _ _ _ log Hok dim path (zip path code) lr
              (setGrad (Vector.zero (grad (state s))) s))
    as (s' & xs & Hrun & Hxs & _).
  { destruct Hloss as (Hh & Hg & Hrows). split; [done|]. split; [|done].
    unfold Vector.zero. proj_simpl. by rewrite length_fmap. }
  { apply Forall_forall. intros [t b] Htb. cbn.
    apply list_elem_of_lookup in Htb as [i Hi].
    apply lookup_zip_with_Some in Hi as (t' & b' & [= <- <-] & Ht & _).
    by eapply list_elem_of_lookup_2. }
  exists s', xs. rewrite run_bind, Hrun. split; [done|].
  rewrite Hxs, length_zip_with. lia.
Qed.

(** ** Duplicate ids *)

Lemma Rsum_cons (x : R) (l : list R) : Rsum (x :: l) = x + Rsum l.
Proof. reflexivity. Qed.

Lemma Rsum_occ (f : Z -> R) (i : Z) (ids : list Z) :
  Rsum (f <$> ids)
  = INR (occ ids i) * f i + Rsum (f <$> filter (fun k => k <> i) ids).
Proof.
  induction ids as [|k ids IH].
  - unfold Rsum, occ; cbn. lra.
  - rewrite fmap_cons, Rsum_cons, IH. unfold occ. cbn [count_occ].
    destruct (Z.eq_dec k i) as [->|Hne].
    + rewrite filter_cons_False by (intros H; by apply H).
      rewrite S_INR. lra.
    + rewrite filter_cons_True by done. rewrite fmap_cons, Rsum_cons. lra.
Qed.

Lemma row_scatterRows (A : Matrix) (g : Vector) (ids : list Z) (i : Z)
  (r : Vector) :
  Matrix.row A i = Some r ->
  Matrix.row (scatterRows A g ids) i
  = Some (imap (fun j x => x + INR (occ ids i) * default 0 (g !! j)) r).
Proof.
  intros Hr. destruct (row_lookup _ _ _ Hr) as [Hi Hl].
  unfold Matrix.row, scatterRows. rewrite decide_True by done.
  rewrite list_lookup_imap, Hl. cbn. by rewrite Z2Nat.id.
Qed.

(** C10. Duplicates in the input bag count: for an id [i] that occurs
    [occ input i] times, [computeHidden] leaves in every column [j] the sum
    of [occ input i] times entry [(i, j)] and of the entries of the other
    ids, divided by the input length; and when the loss evaluation returns
    with a gradient of the embedding dimension, [update] returns and has
    added the (possibly normalised) gradient it leaves in [state.grad]
    [occ input i] times to row [i] of the input matrix. *)
Theorem update_duplicates (normalizeGradient : bool)
  (forward : list Z -> Z -> R -> bool -> M LossStore R)
  (input targets : list Z) (targetIndex : Z) (lr : R) (s : Store) (i : Z) :
  let dim := length (hidden (state (inner s))) in
  input <> [] ->
  rowsOk (wi_ s) dim input ->
  (exists s1 : Store,
     computeHidden input s = (s1, Done tt)
     /\ forall j : nat, (j < dim)%nat ->
        hidden (state (inner s1)) !! j
        = Some ((INR (occ input i) * entry (wi_ s) i j
                 + Rsum ((fun k => entry (wi_ s) k j)
                           <$> filter (fun k => k <> i) input))
                / INR (length input)))
  /\ (forall (l : LossStore) (loss : R),
       forward targets targetIndex lr true (preLoss input s) = (l, Done loss) ->
       length (grad (state l)) = dim ->
       exists s' : Store,
         update normalizeGradient forward input targets targetIndex lr s
         = (s', Done tt)
         /\ grad (state (inner s')) = scattered normalizeGradient input l
         /\ forall r : Vector,
              Matrix.row (wi_ s) i = Some r ->
              Matrix.row (wi_ s') i
              = Some (imap (fun j x =>
                              x + INR (occ input i)
                                  * default 0 (grad (state (inner s')) !! j))
                        r)).
Proof.
  intros dim Hne Hok. split.
  - eexists. split; [by apply computeHidden_run'|].
    intros j Hj. proj_simpl. unfold meanRows.
    rewrite list_lookup_fmap, lookup_seq_lt by done.
    cbn [fmap option_fmap option_map Nat.add]. do 2 f_equal.
    apply (Rsum_occ (fun k => entry (wi_ s) k j)).
  - intros l loss Hfw Hg.
    exists (postUpdate normalizeGradient input s l loss).
    split; [by apply update_run|]. split; [done|].
    intros r Hr. unfold postUpdate. proj_simpl.
    by apply row_scatterRows.
Qed.

(** * Examples *)

Lemma exInput_ok : rowsOk exWi 2 exInput.
Proof.
  unfold exInput, exWi.
  repeat (apply Forall_cons; split; [eexists; split; reflexivity|]).
  apply Forall_nil_2.
Defined.

Lemma exTable_ok : tableOk 8 512 exTable.
Proof. apply initSigmoid_ok; lia. Defined.

Lemma exLoss_ok (ids : list Z) :
  Forall (fun i => (0 <= i < 3)%Z) ids -> lossOk 2 ids exLoss.
Proof.
  intros Hids. split; [done|]. split; [done|].
  eapply Forall_impl; [exact Hids|]. intros i Hi. cbn in Hi.
  assert (Hcases : i = 0%Z \/ i = 1%Z \/ i = 2%Z) by lia.
  destruct Hcases as [->|[->| ->]]; eexists; split; reflexivity.
Defined.

(** C1 at the example: the mean of rows 0, 2 and 0 replaces [7; 7]. *)
Lemma computeHidden_mean_witness :
  rowsOk exWi 2 exInput
  /\ computeHidden exInput exStore
     = (setInner (setHidden (meanRows exWi exInput 2) exLoss) exStore,
        Done tt).
Proof.
  split; [exact exInput_ok|].
  apply (proj1 (computeHidden_mean exInput exStore
                  ltac:(discriminate) exInput_ok)).
Defined.

(** C2 at the example: a positive step on output row 1, alone and as the
    loss of one [update]. *)
Lemma binaryLogistic_step_witness :
  tableOk 8 512 exTable
  /\ (exists score : R,
       sigmoid 8 512 exTable (dot [7; 7] [1; 0]) = Some score
       /\ binaryLogistic 8 512 exTable ln 1 true (1 / 20) exLoss
          = (setWo (<[1%nat := axpy (1 / 20 * (1 - score)) [7; 7] [1; 0]]>
                      exWo)
               (setGrad (axpy (1 / 20 * (1 - score)) [1; 0] [9; 9]) exLoss),
             Done (- ln score)))
  /\ (exists (score : R) (s' : Store),
       sigmoid 8 512 exTable (dot (meanRows exWi exInput 2) [1; 0])
         = Some score
       /\ update false exStep exInput [1%Z] 0 (1 / 20) exStore
          = (s', Done tt)
       /\ wo_ (inner s')
          = <[1%nat := axpy (1 / 20 * (1 - score))
                         (meanRows exWi exInput 2) [1; 0]]> exWo
       /\ wi_ s' = scatterRows exWi (grad (state (inner s'))) exInput).
Proof.
  split; [exact exTable_ok|]. split.
  - apply (proj1 (binaryLogistic_step 8 512 exTable ln 1 true (1 / 20)
                    exTable_ok) exLoss [1; 0]); reflexivity.
  - apply (proj2 (binaryLogistic_step 8 512 exTable ln 1 true (1 / 20)
                    exTable_ok) false exInput [1%Z] 0%Z exStore [1; 0]).
    + discriminate.
    + exact exInput_ok.
    + reflexivity.
    + reflexivity.
    + reflexivity.
Defined.

(** C4 at the example: target 1, two negatives drawn from the table. *)
Lemma negativeSampling_steps_witness :
  exists (negs : list Z) (xs : list R) (s' : LossStore),
    negativeSampling 8 512 exTable ln 2 exNegatives 1 (1 / 20) exLoss
    = (s', Done (Rsum xs))
    /\ length negs = 2%nat
    /\ length xs = 3%nat
    /\ Forall (fun n => n <> 1%Z /\ n ∈ exNegatives) negs
    /\ steps 8 512 exTable ln
         ((1%Z, true) :: ((fun n => (n, false)) <$> negs)) (1 / 20)
         (setGrad (Vector.zero [9; 9]) exLoss)
       = (setNegpos 0 s', Done xs).
Proof.
  apply (negativeSampling_steps 8 512 exTable ln exNegatives exTable_ok
           2 1 (1 / 20) 2 exLoss).
  - lia.
  - cbn. lia.
  - exists 0%Z. split; [apply list_elem_of_here|lia].
  - apply exLoss_ok. unfold exNegatives.
    repeat (apply Forall_cons; split; [lia|]). apply Forall_nil_2.
Defined.

(** C5 at the example: target 0 walks nodes 1 and 0 with bits 1 and 0. *)
Lemma hierarchicalSoftmax_path_witness :
  at_ exCodes 0 = Some [true; false]
  /\ at_ exPaths 0 = Some [1; 0]%Z
  /\ hierarchicalSoftmax 8 512 exTable ln exCodes exPaths 0 (1 / 20) exLoss
     = (xs ← steps 8 512 exTable ln [(1%Z, true); (0%Z, false)] (1 / 20);
        mret (Rsum xs))
         (setGrad (Vector.zero [9; 9]) exLoss).
Proof.
  split; [reflexivity|]. split; [reflexivity|].
  apply (proj1 (hierarchicalSoftmax_path 8 512 exTable ln exCodes exPaths
                  0 (1 / 20) exLoss [true; false] [1; 0]%Z
                  eq_refl eq_refl eq_refl)).
Defined.

(** The real-arithmetic softmax at the example: the three scores of
    [exWo]. *)
Lemma computeOutputSoftmax_softmax_witness :
  exists (out : Vector) (mx : R),
    computeOutputSoftmax 3 false false [] exWo [1; 2] [0; 0; 0] = Some out
    /\ mx ∈ scores exWo [1; 2]
    /\ (forall x, x ∈ scores exWo [1; 2] -> x <= mx)
    /\ out = softmaxAround mx (scores exWo [1; 2])
    /\ Forall (fun p => 0 <= p <= 1) out
    /\ Rsum out = 1.
Proof.
  apply (computeOutputSoftmax_softmax 3 false false [] exWo [1; 2] [0; 0; 0]).
  - discriminate.
  - reflexivity.
  - reflexivity.
  - unfold exWo. repeat (apply Forall_cons; split; [reflexivity|]).
    apply Forall_nil_2.
Defined.

(** C7 at the example: the middle entry of the logistic table. *)
Lemma sigmoid_table_lookup_witness :
  tableOk 8 512 exTable /\ sigmoid 8 512 exTable 0 = Some (1 / 2).
Proof.
  split; [exact exTable_ok|].
  apply (sigmoid_table_lookup 8 512 exTable exTable_ok); [lia|reflexivity].
Defined.

(** C8 at the example: [k = 0] with the sentinel [-1]. *)
Lemma predict_k_witness :
  predict (-1) exLossPredict exInput 0 0 (exHeap, exStore)
  = ((exHeap, exStore), Raise InvalidArgument).
Proof.
  apply (proj1 (predict_k (-1) exLossPredict exInput 0 exHeap exStore));
    lia.
Defined.

(** C10 at the example: id 0 occurs twice in [0; 2; 0]; its row enters
    the mean twice and receives the gradient twice. *)
Lemma update_duplicates_witness :
  occ exInput 0 = 2%nat
  /\ (exists s1 : Store,
       computeHidden exInput exStore = (s1, Done tt)
       /\ forall j : nat, (j < 2)%nat ->
          hidden (state (inner s1)) !! j
          = Some ((INR (occ exInput 0) * entry exWi 0 j
                   + Rsum ((fun k => entry exWi k j)
                             <$> filter (fun k => k <> 0%Z) exInput))
                  / INR (length exInput)))
  /\ (exists s' : Store,
       update false exStep exInput [1%Z] 0 (1 / 20) exStore = (s', Done tt)
       /\ Matrix.row (wi_ s') 0
          = Some (imap (fun j x =>
                          x + INR 2 * default 0 (grad (state (inner s')) !! j))
                    [1; 2])).
Proof.
  split; [reflexivity|].
  pose proof (update_duplicates false exStep exInput [1%Z] 0 (1 / 20)
                exStore 0 ltac:(discriminate) exInput_ok) as [Hmean Hscatter].
  split; [exact Hmean|].
  destruct (binaryLogistic_ok 8 512 exTable ln exTable_ok 2 [1%Z]
              (preLoss exInput exStore) 1 true (1 / 20))
    as (row & score & _ & _ & Hrun & Hok).
  { split; [reflexivity|]. split; [reflexivity|].
    apply Forall_cons; split; [|apply Forall_nil_2].
    eexists; split; reflexivity. }
  { apply list_elem_of_here. }
  destruct (Hscatter _ _ Hrun (proj1 (proj2 Hok))) as (s' & Hupd & _ & Hrow).
  exists s'. split; [exact Hupd|]. exact (Hrow [1; 2] eq_refl).
Defined.

(** C7, the claim as the specification words it: inside the domain the
    value would be interpolated linearly between table entries.  At
    [x = 1/64], half-way between the grid points 0 and 1/32 of the logistic
    table, the code returns the entry of the grid point 0. *)
Lemma sigmoid_not_interpolated :
  sigmoid 8 512 exTable (1 / 64) = Some (1 / 2)
  /\ sigmoid 8 512 exTable (1 / 64) <> sigmoidInterp 8 512 exTable (1 / 64).
Proof.
  assert (Hgrid : gridPos 8 512 (1 / 64) = 513 / 2)
    by (unfold gridPos; lra).
  assert (Hint : Int_part (gridPos 8 512 (1 / 64)) = 256%Z).
  { symmetry. apply Int_part_spec. rewrite Hgrid. lra. }
  assert (Hlo : exTable !! 256%nat = Some (1 / 2)).
  { unfold exTable. rewrite initSigmoid_lookup by lia.
    rewrite <- logistic_0. do 2 f_equal.
    replace (Z.of_nat 256 * 2 * 8)%Z with 4096%Z by reflexivity. lra. }
  assert (Hhi : exTable !! 257%nat = Some (logistic (1 / 32))).
  { unfold exTable. rewrite initSigmoid_lookup by lia. do 2 f_equal.
    replace (Z.of_nat 257 * 2 * 8)%Z with 4112%Z by reflexivity. lra. }
  assert (Hsig : sigmoid 8 512 exTable (1 / 64) = Some (1 / 2)).
  { destruct (sigmoid_inside 8 512 exTable exTable_ok (1 / 64) ltac:(lra))
      as (_ & -> & _).
    rewrite Hint. exact Hlo. }
  split; [exact Hsig|]. rewrite Hsig. unfold sigmoidInterp.
  destruct (Rlt_dec _ _) as [Hlt|_]; [rewrite opp_IZR in Hlt; lra|].
  destruct (Rgt_dec _ _) as [Hgt|_]; [lra|].
  cbv zeta. rewrite Hint. unfold at_.
  rewrite !decide_True by lia.
  change (Z.to_nat 256) with 256%nat.
  change (Z.to_nat (256 + 1)) with 257%nat.
  rewrite Hlo, Hhi. cbn [mbind option_bind default]. rewrite Hgrid.
  intros [= Heq].
  pose proof (exp_increasing (- (1 / 32)) 0 ltac:(lra)) as Hexp.
  rewrite exp_0 in Hexp.
  pose proof (exp_pos (- (1 / 32))) as Hpos.
  unfold logistic in Heq. set (e := exp (- (1 / 32))) in *.
  assert (Hinv : / 2 < / (1 + e)).
  { apply Rinv_lt_contravar; [|lra]. apply Rmult_lt_0_compat; lra. }
  lra.
Qed.

(** * Further properties of the code *)

(** ** [Model::State]: the running mean loss *)

Lemma recordAll_fields (ls : list R) (t : State) :
  lossValue_ (recordAll ls t) = lossValue_ t + Rsum ls
  /\ nexamples_ (recordAll ls t) = (nexamples_ t + Z.of_nat (length ls))%Z
  /\ hidden (recordAll ls t) = hidden t
  /\ output (recordAll ls t) = output t
  /\ grad (recordAll ls t) = grad t
  /\ rng (recordAll ls t) = rng t.
Proof.
  revert t. induction ls as [|l ls IH]; intros t.
  - cbn. repeat split; try done; [unfold Rsum; cbn; lra|lia].
  - destruct (IH (incrementNExamples l t)) as (H1 & H2 & H3 & H4 & H5 & H6).
    unfold recordAll in *. cbn [foldl]. rewrite H1, H2, H3, H4, H5, H6.
    cbn [incrementNExamples lossValue_ nexamples_ hidden output grad rng
         length].
    repeat split; try done; [rewrite Rsum_cons; lra|lia].
Qed.

(** X1. Starting from a freshly constructed state, after one or more calls
    of [incrementNExamples] the accessor [getLoss] returns the arithmetic
    mean of the recorded losses; the buffers and the generator are not
    touched by the bookkeeping. *)
Theorem getLoss_mean (hiddenSize outputSize seed : Z) (ls : list R) :
  ls <> [] ->
  let t := recordAll ls (newState hiddenSize outputSize seed) in
  getLoss t = Rsum ls / INR (length ls)
  /\ nexamples_ t = Z.of_nat (length ls)
  /\ hidden t = hidden (newState hiddenSize outputSize seed)
  /\ grad t = grad (newState hiddenSize outputSize seed).
Proof.
  intros Hne t.
  destruct (recordAll_fields ls (newState hiddenSize outputSize seed))
    as (H1 & H2 & H3 & _ & H5 & _).
  fold t in H1, H2, H3, H5. cbn in H1, H2.
  split; [|split; [lia|split; done]].
  unfold getLoss. rewrite H1, H2, Rplus_0_l, Z.add_0_l.
  by rewrite <- INR_IZR_INZ.
Qed.

(** ** [Model::computeHidden]: what it touches *)

Lemma addRow1_length (h : Vector) (A : Matrix) (i : Z) (h' : Vector) :
  addRow1 h A i = Some h' -> length h' = length h.
Proof.
  unfold addRow1. destruct (Matrix.row A i) as [r|]; [|done]. cbn.
  case_decide; [|done]. intros [= <-]. rewrite length_zip_with. lia.
Qed.

Lemma forEach_addRow1_frame (ids : list Z) (s : Store) :
  exists h : Vector,
    (forEach ids (fun it =>
        s ← gets (fun s => s);
        h ← check (addRow1 (hidden (state (inner s))) (wi_ s) it);
        modify (fun s => setInner (setHidden h (inner s)) s)) s).1
    = setInner (setHidden h (inner s)) s
    /\ length h = length (hidden (state (inner s))).
Proof.
  revert s. induction ids as [|i ids IH]; intros s.
  - exists (hidden (state (inner s))). cbn. by rewrite store_eta.
  - cbn [forEach]. mrun.
    destruct (addRow1 (hidden (state (inner s))) (wi_ s) i) as [h1|] eqn:E1.
    + mrun. destruct (IH (setInner (setHidden h1 (inner s)) s))
        as (h & Hrun & Hlen).
      exists h. rewrite Hrun. split; [done|].
      rewrite Hlen. proj_simpl. by eapply addRow1_length.
    + rewrite run_check_None. exists (hidden (state (inner s))).
      cbn [fst]. by rewrite store_eta.
Qed.

(** X3. Whatever the ids are (valid or not) and however the call ends,
    [computeHidden] writes nothing but [state.hidden], and keeps its size:
    both matrices, the gradient and output buffers, the counters and the
    generator are as before. *)
Theorem computeHidden_frame (input : list Z) (s : Store) :
  exists h : Vector,
    (computeHidden input s).1 = setInner (setHidden h (inner s)) s
    /\ length h = length (hidden (state (inner s))).
Proof.
  unfold computeHidden. rewrite run_modify, run_bind.
  set (s0 := setInner (setHidden (Vector.zero _) _) s).
  destruct (forEach_addRow1_frame input s0) as (h & Hrun & Hlen).
  assert (Hlen0 : length (hidden (state (inner s0)))
                  = length (hidden (state (inner s)))).
  { unfold s0, Vector.zero. proj_simpl. by rewrite length_fmap. }
  destruct (forEach input _ s0) as [s1 [[]|e]]; cbn [fst] in Hrun; subst s1.
  - eexists. unfold modify. cbn [fst]. split; [reflexivity|].
    unfold Vector.mul. proj_simpl. rewrite length_fmap. congruence.
  - exists h. cbn [fst]. split; [done|congruence].
Qed.

(** ** The input is a bag *)

Lemma Rsum_perm (l l' : list R) : l ≡ₚ l' -> Rsum l = Rsum l'.
Proof.
  induction 1 as [|x l l' _ IH|x y l|l1 l2 l3 _ IH1 _ IH2].
  - done.
  - rewrite !Rsum_cons. lra.
  - rewrite !Rsum_cons. lra.
  - lra.
Qed.

Lemma meanRows_perm (A : Matrix) (ids ids' : list Z) (dim : nat) :
  ids ≡ₚ ids' -> meanRows A ids dim = meanRows A ids' dim.
Proof.
  intros Hp. unfold meanRows. apply list_fmap_ext. intros _ j _.
  rewrite (Rsum_perm _ _ (fmap_Permutation (fun i => entry A i j) _ _ Hp)).
  by rewrite (Permutation_length Hp).
Qed.

Lemma rowsOk_perm (A : Matrix) (dim : nat) (ids ids' : list Z) :
  ids ≡ₚ ids' -> rowsOk A dim ids -> rowsOk A dim ids'.
Proof. intros Hp. unfold rowsOk. by rewrite Hp. Qed.

Lemma occ_perm (ids ids' : list Z) (i : Z) :
  ids ≡ₚ ids' -> occ ids i = occ ids' i.
Proof. intros Hp. by apply Permutation_count_occ. Qed.

Lemma scatterRows_perm (A : Matrix) (g : Vector) (ids ids' : list Z) :
  ids ≡ₚ ids' -> scatterRows A g ids = scatterRows A g ids'.
Proof.
  intros Hp. unfold scatterRows. apply imap_ext. intros i r _.
  apply imap_ext. intros j x _. cbn. by rewrite (occ_perm _ _ _ Hp).
Qed.

Lemma preLoss_perm (input input' : list Z) (s : Store) :
  input ≡ₚ input' -> preLoss input s = preLoss input' s.
Proof. intros Hp. unfold preLoss. by rewrite (meanRows_perm _ _ _ _ Hp). Qed.

(** X4. [computeHidden] treats the input as a bag: for ids that name rows
    of the input matrix, listing them in another order gives the same
    store and outcome (over the reals, where the sum does not depend on the
    order of accumulation). *)
Theorem computeHidden_permutation (input input' : list Z) (s : Store) :
  input ≡ₚ input' ->
  rowsOk (wi_ s) (length (hidden (state (inner s)))) input ->
  computeHidden input' s = computeHidden input s.
Proof.
  intros Hp Hok.
  rewrite (computeHidden_run' input s Hok).
  rewrite (computeHidden_run' input' s (rowsOk_perm _ _ _ _ Hp Hok)).
  by rewrite (meanRows_perm _ _ _ _ Hp).
Qed.

(** X5. [update] treats the input as a bag as well: when the loss
    evaluation fails, or returns with a gradient of the embedding
    dimension, listing the input ids in another order gives the same store
    and outcome. *)
Theorem update_permutation (normalizeGradient : bool)
  (forward : list Z -> Z -> R -> bool -> M LossStore R)
  (input input' targets : list Z) (targetIndex : Z) (lr : R) (s : Store) :
  input ≡ₚ input' ->
  input <> [] ->
  rowsOk (wi_ s) (length (hidden (state (inner s)))) input ->
  (forall (l : LossStore) (loss : R),
     forward targets targetIndex lr true (preLoss input s) = (l, Done loss) ->
     length (grad (state l)) = length (hidden (state (inner s)))) ->
  update normalizeGradient forward input' targets targetIndex lr s
  = update normalizeGradient forward input targets targetIndex lr s.
Proof.
  intros Hp Hne Hok Hgrad.
  assert (Hne' : input' <> []).
  { intros ->. by apply Permutation_nil_r in Hp. }
  pose proof (rowsOk_perm _ _ _ _ Hp Hok) as Hok'.
  destruct (forward targets targetIndex lr true (preLoss input s))
    as [l [loss|e]] eqn:Hfw.
  - pose proof (Hgrad l loss eq_refl) as Hg.
    rewrite (update_run normalizeGradient forward input targets targetIndex
               lr s Hne Hok l loss Hfw Hg).
    rewrite (preLoss_perm _ _ s Hp) in Hfw.
    rewrite (update_run normalizeGradient forward input' targets targetIndex
               lr s Hne' Hok' l loss Hfw Hg).
    unfold postUpdate, scattered.
    by rewrite (scatterRows_perm _ _ _ _ Hp), (Permutation_length Hp).
  - rewrite (update_forward_error normalizeGradient forward input targets
               targetIndex lr s Hne Hok l e Hfw).
    rewrite (preLoss_perm _ _ s Hp) in Hfw.
    by rewrite (update_forward_error normalizeGradient forward input' targets
                  targetIndex lr s Hne' Hok' l e Hfw).
Qed.

(** ** [Model::update]: bookkeeping, failure, and the rows it touches *)

(** X6. When the loss evaluation returns [loss] with a gradient of the
    embedding dimension, [update] returns, the example counter is exactly
    one more than the loss evaluation left it and the running total has
    grown by [loss]; the output matrix, the hidden vector and the cursor
    are as the loss evaluation left them.  For a loss that leaves the
    counters alone, the first update on fresh counters makes the mean loss
    equal to that [loss]. *)
Theorem update_counts (normalizeGradient : bool)
  (forward : list Z -> Z -> R -> bool -> M LossStore R)
  (input targets : list Z) (targetIndex : Z) (lr : R) (s : Store)
  (l : LossStore) (loss : R) :
  input <> [] ->
  rowsOk (wi_ s) (length (hidden (state (inner s)))) input ->
  forward targets targetIndex lr true (preLoss input s) = (l, Done loss) ->
  length (grad (state l)) = length (hidden (state (inner s))) ->
  exists s' : Store,
    update normalizeGradient forward input targets targetIndex lr s
    = (s', Done tt)
    /\ nexamples_ (state (inner s')) = (nexamples_ (state l) + 1)%Z
    /\ lossValue_ (state (inner s')) = lossValue_ (state l) + loss
    /\ wo_ (inner s') = wo_ l
    /\ hidden (state (inner s')) = hidden (state l)
    /\ negpos (inner s') = negpos l
    /\ (nexamples_ (state l) = 0%Z -> lossValue_ (state l) = 0 ->
        getLoss (state (inner s')) = loss).
Proof.
  intros Hne Hok Hfw Hg.
  exists (postUpdate normalizeGradient input s l loss).
  split; [by apply update_run|].
  unfold postUpdate. proj_simpl. cbn [incrementNExamples nexamples_ lossValue_
    hidden].
  repeat split; try done.
  intros Hn Hl. unfold getLoss. cbn [incrementNExamples nexamples_ lossValue_].
  rewrite Hn, Hl. change (0 + 1)%Z with 1%Z. lra.
Qed.

(** X7. When the loss evaluation fails, [update] fails with the same
    error: the input matrix is exactly as it was (nothing is scattered),
    the rest of the store is as the loss evaluation left it, and no example
    is counted. *)
Theorem update_loss_failure (normalizeGradient : bool)
  (forward : list Z -> Z -> R -> bool -> M LossStore R)
  (input targets : list Z) (targetIndex : Z) (lr : R) (s : Store)
  (l : LossStore) (e : error) :
  input <> [] ->
  rowsOk (wi_ s) (length (hidden (state (inner s)))) input ->
  forward targets targetIndex lr true (preLoss input s) = (l, Raise e) ->
  update normalizeGradient forward input targets targetIndex lr s
  = (mkStore (wi_ s) l, Raise e).
Proof. intros Hne Hok Hfw. by apply update_forward_error. Qed.

Lemma occ_notin (ids : list Z) (i : Z) : i ∉ ids -> occ ids i = 0%nat.
Proof.
  intros Hi. apply count_occ_not_In. intros Hin. apply Hi.
  by apply list_elem_of_In.
Qed.

(** X8. A successful [update] keeps the shape of the input matrix (the
    number of rows and the length of every row) and changes no row other
    than those named in the input. *)
Theorem update_touches_input_rows (normalizeGradient : bool)
  (forward : list Z -> Z -> R -> bool -> M LossStore R)
  (input targets : list Z) (targetIndex : Z) (lr : R) (s : Store)
  (l : LossStore) (loss : R) :
  input <> [] ->
  rowsOk (wi_ s) (length (hidden (state (inner s)))) input ->
  forward targets targetIndex lr true (preLoss input s) = (l, Done loss) ->
  length (grad (state l)) = length (hidden (state (inner s))) ->
  exists s' : Store,
    update normalizeGradient forward input targets targetIndex lr s
    = (s', Done tt)
    /\ length (wi_ s') = length (wi_ s)
    /\ (forall (i : nat) (r : Vector),
          wi_ s !! i = Some r ->
          exists r', wi_ s' !! i = Some r' /\ length r' = length r)
    /\ (forall i : nat, Z.of_nat i ∉ input -> wi_ s' !! i = wi_ s !! i).
Proof.
  intros Hne Hok Hfw Hg.
  exists (postUpdate normalizeGradient input s l loss).
  split; [by apply update_run|].
  unfold postUpdate, scatterRows. proj_simpl.
  split; [by rewrite length_imap|]. split.
  - intros i r Hr. rewrite list_lookup_imap, Hr. cbn.
    eexists. split; [done|]. by rewrite length_imap.
  - intros i Hi. rewrite list_lookup_imap.
    destruct (wi_ s !! i) as [r|]; [|done]. cbn. f_equal.
    rewrite (occ_notin _ _ Hi). apply list_eq; intros j.
    rewrite list_lookup_imap. destruct (r !! j) as [x|]; [|done].
    cbn. f_equal. lra.
Qed.

(** ** [Model::sigmoid]: table bounds *)

Lemma Int_part_IZR (z : Z) : Int_part (IZR z) = z.
Proof. symmetry. apply Int_part_spec. lra. Qed.

Lemma sigmoid_unit_range (MAX_SIGMOID SIGMOID_TABLE_SIZE : Z)
  (t_sigmoid_ : list R) (x y : R) :
  tableOk MAX_SIGMOID SIGMOID_TABLE_SIZE t_sigmoid_ ->
  Forall (fun v => 0 <= v <= 1) t_sigmoid_ ->
  sigmoid MAX_SIGMOID SIGMOID_TABLE_SIZE t_sigmoid_ x = Some y ->
  0 <= y <= 1.
Proof.
  intros Hok Hrange Hy.
  destruct (Rlt_dec x (- IZR MAX_SIGMOID)) as [Hlo|Hlo].
  { erewrite sigmoid_below in Hy by done. injection Hy as <-. lra. }
  destruct (Rlt_dec (IZR MAX_SIGMOID) x) as [Hhi|Hhi].
  { erewrite sigmoid_above in Hy by done. injection Hy as <-. lra. }
  destruct (sigmoid_inside _ _ _ Hok x ltac:(lra)) as (_ & Heq & _).
  rewrite Heq in Hy. by eapply (Forall_lookup_1 _ _ _ _ Hrange Hy).
Qed.

(** X9. The index that [sigmoid] computes stays inside a table of
    [SIGMOID_TABLE_SIZE + 1] entries for every real argument, and the value
    returned is in [0, 1] when the table entries are; the last entry is
    needed: on a table of only [SIGMOID_TABLE_SIZE] entries the call at
    [x = MAX_SIGMOID] reads past the end. *)
Theorem sigmoid_table_bounds (MAX_SIGMOID SIGMOID_TABLE_SIZE : Z)
  (t_sigmoid_ : list R) :
  (0 < MAX_SIGMOID)%Z -> (0 <= SIGMOID_TABLE_SIZE)%Z ->
  (length t_sigmoid_ = Z.to_nat (SIGMOID_TABLE_SIZE + 1) ->
   forall x : R,
     exists y : R,
       sigmoid MAX_SIGMOID SIGMOID_TABLE_SIZE t_sigmoid_ x = Some y
       /\ (Forall (fun v => 0 <= v <= 1) t_sigmoid_ -> 0 <= y <= 1))
  /\ ((length t_sigmoid_ <= Z.to_nat SIGMOID_TABLE_SIZE)%nat ->
      sigmoid MAX_SIGMOID SIGMOID_TABLE_SIZE t_sigmoid_ (IZR MAX_SIGMOID)
      = None).
Proof.
  intros HM HS. split.
  - intros Hlen x.
    assert (Hok : tableOk MAX_SIGMOID SIGMOID_TABLE_SIZE t_sigmoid_)
      by done.
    destruct (sigmoid_total _ _ _ Hok x) as [y Hy].
    exists y. split; [done|]. intros Hrange.
    by eapply sigmoid_unit_range.
  - intros Hlen. apply IZR_lt in HM. apply IZR_le in HS.
    unfold sigmoid. rewrite opp_IZR.
    destruct (Rlt_dec _ _) as [Hlt|_]; [lra|].
    destruct (Rgt_dec _ _) as [Hgt|_]; [lra|].
    replace ((IZR MAX_SIGMOID + IZR MAX_SIGMOID) * IZR SIGMOID_TABLE_SIZE
             / IZR MAX_SIGMOID / 2)
      with (IZR SIGMOID_TABLE_SIZE) by (field; lra).
    rewrite trunc_nonneg, Int_part_IZR by done.
    unfold at_. rewrite decide_True by (by apply le_IZR).
    by apply lookup_ge_None_2.
Qed.

(** ** [Model::binaryLogistic]: what a step touches and where it moves *)

Lemma addRow_length (v : Vector) (A : Matrix) (i : Z) (a : R) (g : Vector) :
  addRow v A i a = Some g -> length g = length v.
Proof.
  unfold addRow. destruct (Matrix.row A i) as [r|]; [|done]. cbn.
  case_decide; [|done]. intros [= <-]. rewrite length_zip_with. lia.
Qed.

Lemma addVectorToRow_inv (A : Matrix) (v : Vector) (i : Z) (a : R)
  (A' : Matrix) :
  addVectorToRow A v i a = Some A' ->
  (0 <= i)%Z /\ exists r : Vector, A' = <[Z.to_nat i := r]> A.
Proof.
  unfold addVectorToRow, Matrix.row. case_decide; [|done].
  destruct (A !! Z.to_nat i) as [r|]; [|done]. cbn.
  case_decide; [|done]. intros [= <-]. eauto.
Qed.

Lemma sameExcept_refl (touched : Z -> Prop) (s : LossStore) :
  sameExcept touched s s.
Proof. by repeat split. Qed.

Lemma sameExcept_trans (touched : Z -> Prop) (s1 s2 s3 : LossStore) :
  sameExcept touched s1 s2 -> sameExcept touched s2 s3 ->
  sameExcept touched s1 s3.
Proof.
  intros (A1 & A2 & A3 & A4 & A5 & A6 & A7 & A8 & A9)
         (B1 & B2 & B3 & B4 & B5 & B6 & B7 & B8 & B9).
  split; [congruence|]. split.
  { intros j Hj. by rewrite B2, A2. }
  repeat split; congruence.
Qed.

Lemma sameExcept_weaken (t1 t2 : Z -> Prop) (s s' : LossStore) :
  (forall i, t1 i -> t2 i) -> sameExcept t1 s s' -> sameExcept t2 s s'.
Proof.
  intros Hsub (A1 & A2 & A3). split; [done|]. split; [|done].
  intros j Hj. apply A2. intros Ht. by apply Hj, Hsub.
Qed.

Lemma binaryLogistic_touches (MAX_SIGMOID SIGMOID_TABLE_SIZE : Z)
  (t_sigmoid_ : list R) (log : R -> R) (target : Z) (label : bool) (lr : R)
  (s : LossStore) :
  sameExcept (fun i => i = target) s
    (binaryLogistic MAX_SIGMOID SIGMOID_TABLE_SIZE t_sigmoid_ log
       target label lr s).1.
Proof.
  unfold binaryLogistic. mrun.
  destruct (dotRow _ _ _) as [d|];
    [|rewrite run_check_None; apply sameExcept_refl]. mrun.
  destruct (sigmoid _ _ _ _) as [score|];
    [|rewrite run_check_None; apply sameExcept_refl]. mrun.
  destruct (addRow _ _ _ _) as [g|] eqn:Eg;
    [|rewrite run_check_None; apply sameExcept_refl].
  mrun. apply addRow_length in Eg. proj_simpl.
  destruct (addVectorToRow _ _ _ _) as [A|] eqn:EA;
    [|rewrite run_check_None; by repeat split].
  mrun. apply addVectorToRow_inv in EA as [H0 [r ->]].
  assert (Hret : forall s0 : LossStore,
            ((if label then (mret (- log score) : M LossStore R)
              else mret (- log (1 - score))) s0).1 = s0)
    by (intros; by destruct label).
  rewrite Hret. unfold sameExcept. proj_simpl.
  split; [by rewrite length_insert|].
  split; [intros j Hj; apply list_lookup_insert_ne; lia|].
  repeat split; done.
Qed.

(** X10. However it ends, a binary-logistic step on [target] leaves every
    output row other than row [target] as it was and keeps the number of
    rows; it never writes the hidden vector, the output buffer, the
    counters, the generator or the cursor, and it keeps the size of the
    gradient buffer. *)
Theorem binaryLogistic_frame (MAX_SIGMOID SIGMOID_TABLE_SIZE : Z)
  (t_sigmoid_ : list R) (log : R -> R) (target : Z) (label : bool) (lr : R)
  (s : LossStore) :
  let s' := (binaryLogistic MAX_SIGMOID SIGMOID_TABLE_SIZE t_sigmoid_ log
               target label lr s).1 in
  length (wo_ s') = length (wo_ s)
  /\ (forall j : nat, Z.of_nat j <> target -> wo_ s' !! j = wo_ s !! j)
  /\ hidden (state s') = hidden (state s)
  /\ output (state s') = output (state s)
  /\ lossValue_ (state s') = lossValue_ (state s)
  /\ nexamples_ (state s') = nexamples_ (state s)
  /\ rng (state s') = rng (state s)
  /\ negpos s' = negpos s
  /\ length (grad (state s')) = length (grad (state s)).
Proof. apply binaryLogistic_touches. Qed.

Lemma dot_axpy (a : R) (h row : Vector) :
  length row = length h ->
  dot h (axpy a h row) = dot h row + a * dot h h.
Proof.
  revert row. induction h as [|x h IH]; intros [|y row] Hlen; try done.
  - unfold dot, Rsum. cbn. lra.
  - cbn in Hlen. specialize (IH row ltac:(lia)).
    unfold dot, axpy in *. cbn [zip_with]. rewrite !Rsum_cons, IH. lra.
Qed.

Lemma dot_self_nonneg (h : Vector) : 0 <= dot h h.
Proof.
  induction h as [|x h IH]; unfold dot in *; cbn [zip_with].
  - unfold Rsum. cbn. lra.
  - rewrite Rsum_cons. nra.
Qed.

(** X11. With a non-negative learning rate and table entries in [0, 1],
    a step moves the score of its row in the direction of the label: the
    dot product of [hidden] with the row changes by
    [lr * (label - score) * |hidden|^2], so a positive step never lowers
    it and a negative step never raises it. *)
Theorem binaryLogistic_score_moves (MAX_SIGMOID SIGMOID_TABLE_SIZE : Z)
  (t_sigmoid_ : list R) (log : R -> R) (target : Z) (label : bool) (lr : R)
  (s : LossStore) (row : Vector) :
  tableOk MAX_SIGMOID SIGMOID_TABLE_SIZE t_sigmoid_ ->
  Forall (fun v => 0 <= v <= 1) t_sigmoid_ ->
  0 <= lr ->
  Matrix.row (wo_ s) target = Some row ->
  length row = length (hidden (state s)) ->
  length row = length (grad (state s)) ->
  let h := hidden (state s) in
  exists (score : R) (row' : Vector),
    sigmoid MAX_SIGMOID SIGMOID_TABLE_SIZE t_sigmoid_ (dot h row) = Some score
    /\ Matrix.row
         (wo_ (binaryLogistic MAX_SIGMOID SIGMOID_TABLE_SIZE t_sigmoid_ log
                 target label lr s).1) target = Some row'
    /\ dot h row'
       = dot h row + lr * ((if label then 1 else 0) - score) * dot h h
    /\ (if label then dot h row <= dot h row' else dot h row' <= dot h row).
Proof.
  intros Hok Hrange Hlr Hrow Hh Hg h.
  destruct (sigmoid_total _ _ _ Hok (dot h row)) as [score Hscore].
  assert (Hsc : 0 <= score <= 1) by (by eapply sigmoid_unit_range).
  exists score, (axpy (lr * ((if label then 1 else 0) - score)) h row).
  split; [done|].
  rewrite (binaryLogistic_run _ _ _ log target label lr s row score
             Hrow Hh Hg Hscore).
  destruct (row_lookup _ _ _ Hrow) as [H0 Hl].
  split; [|split].
  - unfold afterStep. proj_simpl. rewrite row_insert; try done.
    + by rewrite decide_True.
    + by eapply lookup_lt_Some.
  - by apply dot_axpy.
  - rewrite dot_axpy by done. pose proof (dot_self_nonneg h) as Hd.
    destruct label.
    + pose proof (Rmult_le_pos _ _ (Rmult_le_pos lr (1 - score) Hlr
                                      ltac:(lra)) Hd). lra.
    + pose proof (Rmult_le_pos _ _ (Rmult_le_pos lr score Hlr
                                      ltac:(lra)) Hd).
      replace (lr * (0 - score) * dot h h)
        with (- (lr * score * dot h h)) by ring. lra.
Qed.

(** ** The legacy losses: locality and edge cases *)

Lemma foldlM_sameExcept {A} (touched : Z -> Prop)
  (f : R -> A -> M LossStore R) (l : list A) :
  (forall acc x s, x ∈ l -> sameExcept touched s (f acc x s).1) ->
  forall acc s, sameExcept touched s (foldlM f acc l s).1.
Proof.
  induction l as [|x l IH]; intros Hf acc s.
  - apply sameExcept_refl.
  - cbn [foldlM]. rewrite run_bind.
    pose proof (Hf acc x s ltac:(apply list_elem_of_here)) as H1.
    destruct (f acc x s) as [s1 [b|e]]; cbn [fst] in H1; [|done].
    eapply sameExcept_trans; [exact H1|]. apply IH.
    intros acc' y s' Hy. apply Hf. by apply list_elem_of_further.
Qed.

(** X12. However it ends, [hierarchicalSoftmax] changes no output row
    other than those of the nodes on the target's stored path, keeps the
    number of rows and the size of the gradient buffer, and never writes
    the hidden vector, the output buffer, the counters, the generator or
    the cursor. *)
Theorem hierarchicalSoftmax_frame (MAX_SIGMOID SIGMOID_TABLE_SIZE : Z)
  (t_sigmoid_ : list R) (log : R -> R) (codes : list (list bool))
  (paths : list (list Z)) (target : Z) (lr : R) (s : LossStore) :
  sameExcept
    (fun i => exists path, at_ paths target = Some path /\ i ∈ path) s
    (hierarchicalSoftmax MAX_SIGMOID SIGMOID_TABLE_SIZE t_sigmoid_ log
       codes paths target lr s).1.
Proof.
  unfold hierarchicalSoftmax. rewrite run_modify.
  set (s0 := setGrad _ s).
  assert (H0 : forall T, sameExcept T s s0).
  { intros T. unfold s0, sameExcept, Vector.zero. proj_simpl.
    rewrite length_fmap. by repeat split. }
  destruct (at_ codes target) as [code|];
    [|rewrite run_check_None; apply H0].
  mrun. destruct (at_ paths target) as [path|];
    [|rewrite run_check_None; apply H0].
  mrun. eapply sameExcept_trans; [apply H0|].
  apply foldlM_sameExcept. intros acc i s1 _.
  destruct (at_ path i) as [node|] eqn:En;
    [|rewrite run_check_None; apply sameExcept_refl].
  mrun. destruct (at_ code i) as [bit|];
    [|rewrite run_check_None; apply sameExcept_refl].
  mrun. rewrite run_bind.
  pose proof (binaryLogistic_touches MAX_SIGMOID SIGMOID_TABLE_SIZE
                t_sigmoid_ log node bit lr s1) as Hstep.
  destruct (binaryLogistic _ _ _ _ node bit lr s1) as [s2 [x|e]];
    cbn [fst] in Hstep |- *.
  - eapply sameExcept_weaken; [|exact Hstep].
    intros j ->. exists path. split; [done|].
    unfold at_ in En. case_decide; [|done].
    by eapply list_elem_of_lookup_2.
  - eapply sameExcept_weaken; [|exact Hstep].
    intros j ->. exists path. split; [done|].
    unfold at_ in En. case_decide; [|done].
    by eapply list_elem_of_lookup_2.
Qed.

(** X14. With a negative number of negatives the loop of
    [negativeSampling] does not run at all: not even the positive step is
    taken, the gradient is zero-filled and the loss returned is 0. *)
Theorem negativeSampling_negative_count
  (MAX_SIGMOID SIGMOID_TABLE_SIZE : Z) (t_sigmoid_ : list R) (log : R -> R)
  (neg : Z) (negatives : list Z) (target : Z) (lr : R) (s : LossStore) :
  (neg < 0)%Z ->
  negativeSampling MAX_SIGMOID SIGMOID_TABLE_SIZE t_sigmoid_ log neg
    negatives target lr s
  = (setGrad (Vector.zero (grad (state s))) s, Done 0).
Proof.
  intros Hneg. unfold negativeSampling. rewrite run_modify.
  by rewrite seqZ_nil by lia.
Qed.

(** ** [Model::predict]: repeated calls *)

Lemma predictFrom_run
  (lossPredict : Z -> R -> M (Predictions * LossStore) unit)
  (input : list Z) (k : Z) (threshold : R) (heap : Predictions) (s : Store)
  (h0 : Vector) :
  rowsOk (wi_ s) (length (hidden (state (inner s)))) input ->
  length h0 = length (hidden (state (inner s))) ->
  predictFrom lossPredict input k threshold
    (heap, setInner (setHidden h0 (inner s)) s)
  = let sm := setInner (setHidden
                  (meanRows (wi_ s) input (length (hidden (state (inner s)))))
                  (inner s)) s in
    let r := lossPredict k threshold (reserve (k + 1) heap, inner sm) in
    ((r.1.1, setInner r.1.2 sm), r.2).
Proof.
  intros Hok Hh0. unfold predictFrom. rewrite run_modify, run_zoom.
  cbn [fst snd]. rewrite (computeHidden_run input s h0 Hok Hh0).
  unfold zoom. cbn [fst snd].
  by destruct (lossPredict k threshold _) as [[h l] r].
Qed.

(** X17. For ids that name rows of the input matrix and a loss whose
    [predict] leaves the store alone, [predict] writes nothing but
    [state.hidden] (and the heap), and calling it again with the same
    arguments on the store it left gives the same heap, store and outcome:
    the hidden vector of one call does not leak into the next. *)
Theorem predict_twice (kUnlimitedPredictions : Z)
  (lossPredict : Z -> R -> M (Predictions * LossStore) unit)
  (input : list Z) (k : Z) (threshold : R) (heap : Predictions) (s : Store) :
  rowsOk (wi_ s) (length (hidden (state (inner s)))) input ->
  (forall (k' : Z) (h : Predictions) (l : LossStore),
     (lossPredict k' threshold (h, l)).1.2 = l) ->
  let r1 := predict kUnlimitedPredictions lossPredict input k threshold
              (heap, s) in
  predict kUnlimitedPredictions lossPredict input k threshold (heap, r1.1.2)
  = r1
  /\ exists h' : Vector,
       r1.1.2 = setInner (setHidden h' (inner s)) s
       /\ length h' = length (hidden (state (inner s))).
Proof.
  intros Hok Hro r1.
  set (dim := length (hidden (state (inner s)))) in *.
  set (sm := setInner (setHidden (meanRows (wi_ s) input dim) (inner s)) s).
  assert (Hmean : length (meanRows (wi_ s) input dim) = dim).
  { unfold meanRows. by rewrite length_fmap, length_seq. }
  assert (Hfrom : forall k' : Z,
    let r := predictFrom lossPredict input k' threshold (heap, s) in
    r.1.2 = sm
    /\ predictFrom lossPredict input k' threshold (heap, sm) = r).
  { intros k' r.
    assert (Hr : r = predictFrom lossPredict input k' threshold
                       (heap, setInner (setHidden
                                 (hidden (state (inner s))) (inner s)) s))
      by (by rewrite store_eta).
    rewrite (predictFrom_run lossPredict input k' threshold heap s
               (hidden (state (inner s))) Hok eq_refl) in Hr.
    fold dim sm in Hr.
    assert (Hl : (lossPredict k' threshold
                    (reserve (k' + 1) heap, inner sm)).1.2 = inner sm)
      by apply Hro.
    split.
    - rewrite Hr. cbn [fst snd]. rewrite Hl. by destruct sm.
    - unfold sm at 1.
      rewrite (predictFrom_run lossPredict input k' threshold heap s _
                 Hok Hmean).
      fold dim sm. by rewrite Hr. }
  unfold predict in r1 |- *.
  destruct (decide (k = kUnlimitedPredictions)) as [Hk|Hk].
  - assert (Hr1 : r1 = predictFrom lossPredict input
                         (Matrix.size0 (wo_ (inner s))) threshold (heap, s))
      by done.
    destruct (Hfrom (Matrix.size0 (wo_ (inner s)))) as [Hs Hagain].
    rewrite <- Hr1 in Hs, Hagain. rewrite Hs.
      split; [|by exists (meanRows (wi_ s) input dim)].
    rewrite run_gets. exact Hagain.
  - destruct (decide (k <= 0)%Z) as [Hle|Hpos].
    + subst r1. rewrite !run_raise. cbn [fst snd].
      split; [done|]. exists (hidden (state (inner s))).
      by rewrite store_eta.
    + assert (Hr1 : r1 = predictFrom lossPredict input k threshold (heap, s))
        by done.
      destruct (Hfrom k) as [Hs Hagain].
      rewrite <- Hr1 in Hs, Hagain. rewrite Hs.
      split; [|by exists (meanRows (wi_ s) input dim)].
      rewrite run_ret. exact Hagain.
Qed.

(** ** Examples for the further properties *)

Lemma exStep_run :
  exists (l : LossStore) (loss : R),
    exStep [1%Z] 0 (1 / 20) true (preLoss exInput exStore) = (l, Done loss)
    /\ length (grad (state l)) = 2%nat.
Proof.
  destruct (binaryLogistic_ok 8 512 exTable ln exTable_ok 2 [1%Z]
              (preLoss exInput exStore) 1 true (1 / 20))
    as (row & score & _ & _ & Hrun & Hok).
  { split; [reflexivity|]. split; [reflexivity|].
    apply Forall_cons; split; [|apply Forall_nil_2].
    eexists; split; reflexivity. }
  { apply list_elem_of_here. }
  eexists _, _. split; [exact Hrun|]. exact (proj1 (proj2 Hok)).
Defined.

Lemma exStep_grad (l : LossStore) (loss : R) :
  exStep [1%Z] 0 (1 / 20) true (preLoss exInput exStore) = (l, Done loss) ->
  length (grad (state l)) = 2%nat.
Proof.
  intros Hfw. destruct exStep_run as (l' & loss' & Hrun & Hlen).
  rewrite Hrun in Hfw. by injection Hfw as <- _.
Defined.

Lemma exTable_range : Forall (fun v => 0 <= v <= 1) exTable.
Proof. apply (initSigmoid_monotone 8 512); lia. Defined.

(** C9 at the example: a gradient buffer holding [1; 1] instead of
    [9; 9], with a loss (one binary-logistic step) that adds to the buffer
    it is given and never clears it. *)
Lemma update_grad_fresh_witness :
  rowsOk exWi 2 exInput
  /\ grad (state (preLoss exInput
                    (setInner (setGrad [1; 1] exLoss) exStore))) = [0; 0]
  /\ update false exStep exInput [1%Z] 0 (1 / 20)
       (setInner (setGrad [1; 1] exLoss) exStore)
     = update false exStep exInput [1%Z] 0 (1 / 20) exStore
  /\ exists (l : LossStore) (loss : R),
       exStep [1%Z] 0 (1 / 20) true (preLoss exInput exStore)
       = (l, Done loss)
       /\ update false exStep exInput [1%Z] 0 (1 / 20)
            (setInner (setGrad [1; 1] exLoss) exStore)
          = (mkStore (scatterRows exWi (grad (state l)) exInput)
               (setGrad (grad (state l))
                  (mkLossStore (wo_ l) (negpos l)
                     (incrementNExamples loss (state l)))),
             Done tt).
Proof.
  pose proof (update_grad_fresh false exStep exInput [1%Z] 0 (1 / 20)
                exStore [1; 1] ltac:(discriminate) exInput_ok eq_refl)
    as (Hzero & _ & _ & Hdone & Hsame & _).
  split; [exact exInput_ok|]. split; [exact Hzero|]. split; [exact Hsame|].
  destruct exStep_run as (l & loss & Hrun & Hlen).
  exists l, loss. split; [exact Hrun|].
  exact (Hdone l loss Hrun Hlen).
Defined.

(** X1 at the example: two recorded losses, 1 and 3. *)
Lemma getLoss_mean_witness :
  getLoss (recordAll [1; 3] (newState 2 3 1)) = Rsum [1; 3] / INR 2
  /\ nexamples_ (recordAll [1; 3] (newState 2 3 1)) = 2%Z.
Proof.
  pose proof (getLoss_mean 2 3 1 [1; 3] ltac:(discriminate)) as H.
  cbv zeta in H. split; [exact (proj1 H)|exact (proj1 (proj2 H))].
Defined.

(** X4 at the example: [2; 0; 0] instead of [0; 2; 0]. *)
Lemma computeHidden_permutation_witness :
  computeHidden [2; 0; 0]%Z exStore = computeHidden exInput exStore.
Proof.
  apply (computeHidden_permutation exInput [2; 0; 0]%Z exStore).
  - apply perm_swap.
  - exact exInput_ok.
Defined.

(** X5 at the example: the same reordering under [update]. *)
Lemma update_permutation_witness :
  update false exStep [2; 0; 0]%Z [1%Z] 0 (1 / 20) exStore
  = update false exStep exInput [1%Z] 0 (1 / 20) exStore.
Proof.
  apply (update_permutation false exStep exInput [2; 0; 0]%Z [1%Z] 0
           (1 / 20) exStore).
  - apply perm_swap.
  - discriminate.
  - exact exInput_ok.
  - exact exStep_grad.
Defined.

(** X6 at the example: one update on fresh counters. *)
Lemma update_counts_witness :
  exists (loss : R) (s' : Store),
    update false exStep exInput [1%Z] 0 (1 / 20) exStore = (s', Done tt)
    /\ nexamples_ (state (inner s')) = 1%Z
    /\ getLoss (state (inner s')) = loss.
Proof.
  destruct exStep_run as (l & loss & Hrun & Hlen).
  pose proof (binaryLogistic_touches 8 512 exTable ln 1 true (1 / 20)
                (preLoss exInput exStore)) as Hsame.
  change (binaryLogistic 8 512 exTable ln 1 true (1 / 20)
            (preLoss exInput exStore))
    with (exStep [1%Z] 0 (1 / 20) true (preLoss exInput exStore)) in Hsame.
  rewrite Hrun in Hsame.
  destruct Hsame as (_ & _ & _ & _ & Hlv & Hne & _).
  cbn in Hlv, Hne.
  destruct (update_counts false exStep exInput [1%Z] 0 (1 / 20) exStore
              l loss ltac:(discriminate) exInput_ok Hrun Hlen)
    as (s' & Hupd & Hn & _ & _ & _ & _ & Hmean).
  exists loss, s'. split; [exact Hupd|]. split.
  - rewrite Hn, Hne. reflexivity.
  - exact (Hmean Hne Hlv).
Defined.

(** X7 at the example: a loss that fails at once. *)
Lemma update_loss_failure_witness :
  update false exFail exInput [1%Z] 0 (1 / 20) exStore
  = (mkStore exWi (preLoss exInput exStore), Raise Fatal).
Proof.
  apply (update_loss_failure false exFail exInput [1%Z] 0 (1 / 20) exStore
           (preLoss exInput exStore) Fatal).
  - discriminate.
  - exact exInput_ok.
  - reflexivity.
Defined.

(** X8 at the example: row 1 is not in the input and stays as it is. *)
Lemma update_touches_input_rows_witness :
  exists s' : Store,
    update false exStep exInput [1%Z] 0 (1 / 20) exStore = (s', Done tt)
    /\ length (wi_ s') = 3%nat
    /\ wi_ s' !! 1%nat = Some [3; 4].
Proof.
  destruct exStep_run as (l & loss & Hrun & Hlen).
  destruct (update_touches_input_rows false exStep exInput [1%Z] 0 (1 / 20)
              exStore l loss ltac:(discriminate) exInput_ok Hrun Hlen)
    as (s' & Hupd & Hrows & _ & Hother).
  exists s'. split; [exact Hupd|]. split; [exact Hrows|].
  rewrite (Hother 1%nat); [reflexivity|].
  unfold exInput. intros Hin.
  repeat (apply elem_of_cons in Hin as [Hin|Hin]; [discriminate|]).
  by apply elem_of_nil in Hin.
Defined.

(** X9 at the example: the full table, and the table cut to 512 entries. *)
Lemma sigmoid_table_bounds_witness :
  (forall x : R, exists y : R,
     sigmoid 8 512 exTable x = Some y
     /\ (Forall (fun v => 0 <= v <= 1) exTable -> 0 <= y <= 1))
  /\ sigmoid 8 512 (take 512 exTable) (IZR 8) = None.
Proof.
  split.
  - apply (proj1 (sigmoid_table_bounds 8 512 exTable
                    ltac:(lia) ltac:(lia))).
    apply exTable_ok.
  - apply (proj2 (sigmoid_table_bounds 8 512 (take 512 exTable)
                    ltac:(lia) ltac:(lia))).
    rewrite length_take. lia.
Defined.

(** X11 at the example: a positive step on output row 1. *)
Lemma binaryLogistic_score_moves_witness :
  exists (score : R) (row' : Vector),
    sigmoid 8 512 exTable (dot [7; 7] [1; 0]) = Some score
    /\ Matrix.row
         (wo_ (binaryLogistic 8 512 exTable ln 1 true (1 / 20) exLoss).1) 1
       = Some row'
    /\ dot [7; 7] row'
       = dot [7; 7] [1; 0] + 1 / 20 * (1 - score) * dot [7; 7] [7; 7]
    /\ dot [7; 7] [1; 0] <= dot [7; 7] row'.
Proof.
  apply (binaryLogistic_score_moves 8 512 exTable ln 1 true (1 / 20)
           exLoss [1; 0] exTable_ok exTable_range);
    [lra|reflexivity|reflexivity|reflexivity].
Defined.

(** X14 at the example: [neg = -1]. *)
Lemma negativeSampling_negative_count_witness :
  negativeSampling 8 512 exTable ln (-1) exNegatives 1 (1 / 20) exLoss
  = (setGrad (Vector.zero [9; 9]) exLoss, Done 0).
Proof.
  apply (negativeSampling_negative_count 8 512 exTable ln (-1) exNegatives
           1 (1 / 20) exLoss). lia.
Defined.

(** X17 at the example: two calls with [k = 2]. *)
Lemma predict_twice_witness :
  predict (-1) exLossPredict exInput 2 0
    (exHeap, (predict (-1) exLossPredict exInput 2 0 (exHeap, exStore)).1.2)
  = predict (-1) exLossPredict exInput 2 0 (exHeap, exStore).
Proof.
  apply (proj1 (predict_twice (-1) exLossPredict exInput 2 0 exHeap exStore
                  exInput_ok ltac:(reflexivity))).
Defined.
